(** * Lucky-draw backend: the weighted draw transaction

    A shallow embedding of the two draw endpoints of the repository,

    - [IndexTs]: [src/index.ts], the participant-aware endpoint whose weights
      are the [probability] column;
    - [Part000]: [src/unnamed/part_000], the anonymous endpoint whose weights
      are the [total_quantity] column;

    over a small model of the MySQL connection they talk to.

    Numbers.  The integer columns ([id], [total_quantity],
    [remaining_quantity]) are [Z]; the weights and the running value of the
    selection walk are rationals [Q] with exact arithmetic, an idealisation of
    JavaScript's doubles.  [Math.random()] is an input [u] of the model, a
    rational with [0 <= u < 1].  Where a property of the walk depends on the
    rounding of doubles, it is stated of [Double.walk], the same loop with
    every arithmetic result rounded. *)

From Stdlib Require Import List ZArith QArith Lia Lqa Bool String.
From Stdlib Require Import Qround Qpower.
From Stdlib Require Import Permutation Sorted.
Import ListNotations.

Set Implicit Arguments.
Open Scope Z_scope.

(** ** JavaScript arrays *)

(** [xs[i]]: [undefined] (here [None]) outside [0 .. xs.length - 1], in
    particular at the index [-1] that [xs[xs.length - 1]] reads on an empty
    array. *)
Definition js_index {A : Type} (xs : list A) (i : Z) : option A :=
  if i <? 0 then None else nth_error xs (Z.to_nat i).

(** [xs.length]. *)
Definition js_length {A : Type} (xs : list A) : Z := Z.of_nat (List.length xs).

(** ** The selection walk, over any row type

    Both files contain the same loop

<<
  for (const prize of prizes) {
    random -= prize.<weight>;
    if (random <= 0) { return prize; }
  }
>>
    with a different weight column.  [Walk.walk] is that loop for a weight
    function [weight]; [None] means that the loop ran off the end of the
    array. *)
Module Walk.
Section Walk.
Variable Row : Type.
Variable weight : Row -> Q.

Fixpoint walk (random : Q) (prizes : list Row) : option Row :=
  match prizes with
  | [] => None
  | prize :: rest =>
      let random := (random - weight prize)%Q in
      if Qle_bool random 0 then Some prize else walk random rest
  end.

(** The running value after the rows of [visited] have been subtracted. *)
Definition running (random : Q) (visited : list Row) : Q :=
  fold_left (fun r prize => (r - weight prize)%Q) visited random.

(** The sum of the weights, in the order of the list. *)
Definition weight_sum (prizes : list Row) : Q :=
  fold_left (fun sum prize => (sum + weight prize)%Q) prizes 0%Q.

(** What the whole function returns: the walk's choice, else
    [prizes[prizes.length - 1]]. *)
Definition select (random : Q) (prizes : list Row) : option Row :=
  match walk random prizes with
  | Some prize => Some prize
  | None => js_index prizes (js_length prizes - 1)
  end.

(** The walk stops at [p]: the running value is positive after every row
    before [p] and drops to [<= 0] at [p]. *)
Definition stops_at (random : Q) (prizes : list Row) (p : Row) : Prop :=
  exists before after,
    prizes = before ++ p :: after /\
    (forall n, (0 < n <= List.length before)%nat ->
               (0 < running random (firstn n prizes))%Q) /\
    (running random (before ++ [p]) <= 0)%Q.

(** The walk exhausts the rows: the running value stays positive. *)
Definition runs_off (random : Q) (prizes : list Row) : Prop :=
  forall n, (0 < n <= List.length prizes)%nat ->
            (0 < running random (firstn n prizes))%Q.

Definition is_last (prizes : list Row) (p : Row) : Prop :=
  exists front, prizes = front ++ [p].

(** [p] is either where the walk stops or, when it stops nowhere, the last
    row. *)
Definition chosen (random : Q) (prizes : list Row) (p : Row) : Prop :=
  stops_at random prizes p \/ (runs_off random prizes /\ is_last prizes p).
End Walk.
End Walk.

(** ** The store

  The MySQL database behind [mysql2]'s pool, as far as the draw endpoints
  use it: three tables, one connection with at most one open transaction,
  and the five statements the endpoints send. *)

(** A row of [participants]. *)
Record Participant := mkParticipant {
participant_id : Z;
participant_name : string
}.

(** A row of [lottery_records]; the [lottery_time] column is filled in by the
  database and plays no part in the draw. *)
Record LotteryRecord := mkLotteryRecord {
record_id : Z;
record_participant_id : Z;
record_prize_id : Z
}.

(** The two files declare different [Prize] interfaces; the store needs of a
  prize row only its [id] and its [remaining_quantity]. *)
Class PrizeRow (P : Type) := {
row_id : P -> Z;
row_remaining : P -> Z;
row_set_remaining : P -> Z -> P;
row_id_set : forall p r, row_id (row_set_remaining p r) = row_id p;
row_remaining_set : forall p r, row_remaining (row_set_remaining p r) = r
}.

(** The statements, with the text the source sends. *)
Inductive Sql :=
| SelectParticipantsByName (name : string)
| InsertParticipant (name : string)
| SelectEligiblePrizes (for_update : bool)
| InsertLotteryRecord (participant prize : Z)
| DecrementPrize (prize : Z).

Definition sql_text (q : Sql) : string :=
match q with
| SelectParticipantsByName _ => "SELECT * FROM participants WHERE name = ?"
| InsertParticipant _ => "INSERT INTO participants (name) VALUES (?)"
| SelectEligiblePrizes false =>
    "SELECT * FROM prizes WHERE remaining_quantity > 0"
| SelectEligiblePrizes true =>
    "SELECT * FROM prizes WHERE remaining_quantity > 0 FOR UPDATE"
| InsertLotteryRecord _ _ =>
    "INSERT INTO lottery_records (participant_id, prize_id) VALUES (?, ?)"
| DecrementPrize _ =>
    "UPDATE prizes SET remaining_quantity = remaining_quantity - 1 WHERE id = ? AND remaining_quantity > 0"
end.

(** The value an AUTO_INCREMENT column gives to a new row: a fresh id, here
    the successor of the largest one in the table. *)
Definition next_id (ids : list Z) : Z := 1 + fold_right Z.max 0 ids.

Module Store.
Section Store.
Context {P : Type} {PR : PrizeRow P}.

Record Db := mkDb {
  prizes : list P;
  participants : list Participant;
  lottery_records : list LotteryRecord
}.

(** *** The statements on tables *)

(** [WHERE remaining_quantity > 0]. *)
Definition eligible (ps : list P) : list P :=
  filter (fun p => 0 <? row_remaining p) ps.

(** [WHERE name = ?], names compared as they are (a MySQL collation may
    identify more of them). *)
Definition named (name : string) (ps : list Participant) : list Participant :=
  filter (fun p => String.eqb (participant_name p) name) ps.

(** [SET remaining_quantity = remaining_quantity - 1
     WHERE id = ? AND remaining_quantity > 0], on one row. *)
Definition decrement_row (id : Z) (p : P) : P :=
  if (row_id p =? id) && (0 <? row_remaining p)
  then row_set_remaining p (row_remaining p - 1)
  else p.

Definition decrement (id : Z) (ps : list P) : list P :=
  map (decrement_row id) ps.

(** No stock is negative. *)
Definition nonneg (ps : list P) : Prop :=
  Forall (fun p => 0 <= row_remaining p) ps.

(** [id] is a key of the table. *)
Definition unique_ids (ps : list P) : Prop :=
  NoDup (map row_id ps).

(** [after] is [before] with one unit taken off the row [p], and nothing
    else changed. *)
Definition one_decrement (before after : list P) (p : P) : Prop :=
  exists front back,
    before = front ++ p :: back /\
    0 < row_remaining p /\
    after = front ++ row_set_remaining p (row_remaining p - 1) :: back.

(** The UPDATE's [affectedRows]. *)
Definition affected (id : Z) (ps : list P) : Z :=
  js_length (filter (fun p => (row_id p =? id) && (0 <? row_remaining p)) ps).

Definition add_participant (name : string) (db : Db) : Z * Db :=
  let insertId := next_id (map participant_id (participants db)) in
  (insertId,
   {| prizes := prizes db;
      participants := participants db ++ [mkParticipant insertId name];
      lottery_records := lottery_records db |}).

Definition add_record (participant prize : Z) (db : Db) : Db :=
  let insertId := next_id (map record_id (lottery_records db)) in
  {| prizes := prizes db;
     participants := participants db;
     lottery_records :=
       lottery_records db ++ [mkLotteryRecord insertId participant prize] |}.

Definition with_prizes (f : list P -> list P) (db : Db) : Db :=
  {| prizes := f (prizes db);
     participants := participants db;
     lottery_records := lottery_records db |}.

(** *** The connection

    [committed] is what every other connection sees; [work] is the open
    transaction's own view (its begin-time copy plus its writes), [None]
    when no transaction is open; [locked] holds the ids of the prize rows
    this transaction has read [FOR UPDATE]. *)
Record Conn := mkConn {
  committed : Db;
  work : option Db;
  locked : list Z
}.

Definition idle (db : Db) : Conn :=
  {| committed := db; work := None; locked := [] |}.

(** What a statement on this connection reads. *)
Definition view (c : Conn) : Db :=
  match work c with Some w => w | None => committed c end.

(** A write goes to the open transaction, or straight to the database when
    there is none (autocommit). *)
Definition write (f : Db -> Db) (c : Conn) : Conn :=
  match work c with
  | Some w => {| committed := committed c; work := Some (f w); locked := locked c |}
  | None => {| committed := f (committed c); work := None; locked := locked c |}
  end.

(** [START TRANSACTION] first commits a transaction left open. *)
Definition begin (c : Conn) : Conn :=
  {| committed := view c; work := Some (view c); locked := [] |}.

Definition commit (c : Conn) : Conn :=
  {| committed := view c; work := None; locked := [] |}.

Definition rollback (c : Conn) : Conn :=
  {| committed := committed c; work := None; locked := [] |}.

(** *** Other draws

    While this connection waits between two statements, other draws may
    commit.  [others] lists the prize ids on which they commit their guarded
    decrement, in order.  A row this transaction holds [FOR UPDATE] cannot be
    written by them before this transaction ends: their decrement of such a
    row waits and is not part of this window. *)
Definition other_draw (held : list Z) (id : Z) (ps : list P) : list P :=
  map (fun p => if existsb (Z.eqb (row_id p)) held then p else decrement_row id p) ps.

Definition other_draws (held : list Z) (others : list Z) (ps : list P) : list P :=
  fold_left (fun ps id => other_draw held id ps) others ps.

Definition interleave (others : list Z) (c : Conn) : Conn :=
  let f := with_prizes (other_draws (locked c) others) in
  {| committed := f (committed c);
     work := option_map f (work c);
     locked := locked c |}.
End Store.
Arguments Db P : clear implicits.
Arguments Conn P : clear implicits.
End Store.

(** ** Asynchronous handler code

  A handler is a sequence of awaited store calls.  Any of
  [beginTransaction], [execute] and [commit] may reject (a persistence
  failure): [fault = Some n] makes the [n]-th such call of the run (counted
  from 0) reject without touching the database; [None] makes none reject.
  [rollback] and [release] are taken not to fail.  The [trace] lists what the
  handler did, in order. *)
Module Task.
Section Task.
Context {P : Type} {PR : PrizeRow P}.

Inductive Event :=
| BeginTransaction
| Execute (sql : Sql)
| CallWeightedRandom (prizes : list P)
| Commit
| Rollback
| Release.

Record Session := mkSession {
  conn : Store.Conn P;
  calls : nat;
  trace : list Event
}.

Inductive Outcome (A : Type) :=
| Fulfilled (a : A)
| Rejected.
Arguments Rejected {A}.

Definition Task (A : Type) : Type :=
  option nat -> Session -> Outcome A * Session.

Definition ret {A} (a : A) : Task A := fun _ s => (Fulfilled a, s).

Definition bind {A B} (m : Task A) (k : A -> Task B) : Task B :=
  fun fault s =>
    match m fault s with
    | (Fulfilled a, s') => k a fault s'
    | (Rejected, s') => (Rejected, s')
    end.

(** A thrown exception, such as the TypeError of [undefined.id]. *)
Definition throw {A} : Task A := fun _ s => (Rejected, s).

Definition log (ev : Event) (s : Session) : list Event := trace s ++ [ev].

(** An awaited store call that may reject. *)
Definition await {A} (ev : Event) (run : Store.Conn P -> A * Store.Conn P) : Task A :=
  fun fault s =>
    match fault with
    | Some n =>
        if Nat.eqb n (calls s)
        then (Rejected, {| conn := conn s; calls := S (calls s); trace := log ev s |})
        else let (a, c) := run (conn s) in
             (Fulfilled a, {| conn := c; calls := S (calls s); trace := log ev s |})
    | None =>
        let (a, c) := run (conn s) in
        (Fulfilled a, {| conn := c; calls := S (calls s); trace := log ev s |})
    end.

(** A step that cannot reject. *)
Definition step (ev : list Event) (run : Store.Conn P -> Store.Conn P) : Task unit :=
  fun _ s =>
    (Fulfilled tt, {| conn := run (conn s); calls := calls s; trace := trace s ++ ev |}).

(** *** [connection.*] *)

Definition beginTransaction : Task unit :=
  await BeginTransaction (fun c => (tt, Store.begin c)).

Definition commit : Task unit :=
  await Commit (fun c => (tt, Store.commit c)).

Definition rollback : Task unit :=
  step [Rollback] Store.rollback.

Definition release : Task unit :=
  step [Release] (fun c => c).

(** [connection.execute], one definition per statement. *)

Definition select_participants (name : string) : Task (list Participant) :=
  await (Execute (SelectParticipantsByName name))
    (fun c => (Store.named name (Store.participants (Store.view c)), c)).

(** Resolves to the header's [insertId]. *)
Definition insert_participant (name : string) : Task Z :=
  await (Execute (InsertParticipant name))
    (fun c =>
       (fst (Store.add_participant name (Store.view c)),
        Store.write (fun db => snd (Store.add_participant name db)) c)).

(** The rows with stock; [FOR UPDATE] also locks the rows returned. *)
Definition select_eligible_prizes (for_update : bool) : Task (list P) :=
  await (Execute (SelectEligiblePrizes for_update))
    (fun c =>
       let rows := Store.eligible (Store.prizes (Store.view c)) in
       (rows,
        if for_update
        then {| Store.committed := Store.committed c;
                Store.work := Store.work c;
                Store.locked := map row_id rows |}
        else c)).

Definition insert_lottery_record (participant prize : Z) : Task unit :=
  await (Execute (InsertLotteryRecord participant prize))
    (fun c => (tt, Store.write (Store.add_record participant prize) c)).

(** Resolves to the header's [affectedRows]. *)
Definition decrement_prize (id : Z) : Task Z :=
  await (Execute (DecrementPrize id))
    (fun c =>
       (Store.affected id (Store.prizes (Store.view c)),
        Store.write (Store.with_prizes (Store.decrement id)) c)).

(** The other draws that commit while this handler is between its read of
    the prizes and its UPDATE. *)
Definition meanwhile (others : list Z) : Task unit :=
  step [] (Store.interleave others).

(** *** Responses *)

Inductive Response :=
| Json200 (participant : option Participant) (prize : P)
| JsonError (status : Z) (error : string).

(** [try { body } catch { rollback; 500 } finally { release }] on a
    connection taken from the pool. *)
Definition try_catch_finally (body : Task Response) (error : string)
    (fault : option nat) (c : Store.Conn P) : Response * Session :=
  let finally (r : Response) (s : Session) :=
    (r, snd (release fault s)) in
  match body fault {| conn := c; calls := 0; trace := [] |} with
  | (Fulfilled r, s) => finally r s
  | (Rejected, s) => finally (JsonError 500 error) (snd (rollback fault s))
  end.
End Task.
Arguments Event P : clear implicits.
Arguments Session P : clear implicits.
Arguments Response P : clear implicits.
Arguments Task P A : clear implicits.
Arguments Rejected {A}.
End Task.

Declare Scope task_scope.
Delimit Scope task_scope with task.
Notation "x <- m ;; k" := (Task.bind m (fun x => k))
(at level 61, m at next level, right associativity) : task_scope.
Notation "m ;; k" := (Task.bind m (fun _ => k))
(at level 61, right associativity) : task_scope.

(** ** [src/index.ts] *)
Module IndexTs.
Import Task.
Local Open Scope task_scope.

Record Prize := mkPrize {
  id : Z;
  name : string;
  total_quantity : Z;
  remaining_quantity : Z;
  probability : Q;
  color : string
}.

#[global] Instance Prize_row : PrizeRow Prize := {|
  row_id := id;
  row_remaining := remaining_quantity;
  row_set_remaining p r :=
    mkPrize (id p) (name p) (total_quantity p) r (probability p) (color p);
  row_id_set _ _ := eq_refl;
  row_remaining_set _ _ := eq_refl
|}.

(** The [for ... of] loop of [weightedRandom]. *)
Fixpoint walk (random : Q) (prizes : list Prize) : option Prize :=
  match prizes with
  | [] => None
  | prize :: rest =>
      let random := (random - probability prize)%Q in
      if Qle_bool random 0 then Some prize else walk random rest
  end.

(** The weight column of this file. *)
Definition weight (prize : Prize) : Q := probability prize.

(** [Math.random() * 100], for [Math.random() = u]. *)
Definition random_start (u : Q) : Q := (u * 100)%Q.

Definition weightedRandom (u : Q) (prizes : list Prize) : option Prize :=
  let random := random_start u in
  match walk random prizes with
  | Some prize => Some prize
  | None => js_index prizes (js_length prizes - 1)
  end.

Definition call_weightedRandom (u : Q) (prizes : list Prize)
  : Task Prize (option Prize) :=
  step [CallWeightedRandom prizes] (fun c => c) ;;
  ret (weightedRandom u prizes).

(** The body of the [try] block of [POST /api/lottery/draw].
    [participantName] is [req.body.participantName], a string, or [None] when
    the body has none; [!participantName] holds of [None] and of the empty
    string.  [others] are the draws that commit between this handler's read of
    the prizes and its UPDATE. *)
Definition draw_body (participantName : option string) (u : Q)
    (others : list Z) : Task Prize (Response Prize) :=
  beginTransaction ;;
  match participantName with
  | None | Some EmptyString =>
      ret (JsonError 400 "Participant name is required")
  | Some participantName =>
      participants <- select_participants participantName ;;
      participantId <-
        match participants with
        | [] => insert_participant participantName
        | first :: _ => ret (participant_id first)
        end ;;
      prizes <- select_eligible_prizes false ;;
      if js_length prizes =? 0 then
        rollback ;;
        ret (JsonError 400 "No prizes available")
      else
        selectedPrize <- call_weightedRandom u prizes ;;
        match selectedPrize with
        | None => throw
        | Some selectedPrize =>
            insert_lottery_record participantId (id selectedPrize) ;;
            meanwhile others ;;
            _ <- decrement_prize (id selectedPrize) ;;
            commit ;;
            ret (Json200
                   (Some (mkParticipant participantId participantName))
                   selectedPrize)
        end
  end.

(** The participant id the handler ends up with, and the tables after its
    lookup and, for a new name, its INSERT. *)
Definition find_or_create (participantName : string) (db : Store.Db Prize)
  : Z * Store.Db Prize :=
  match Store.named participantName (Store.participants db) with
  | [] => Store.add_participant participantName db
  | first :: _ => (participant_id first, db)
  end.

Definition draw (participantName : option string) (u : Q) (others : list Z)
    (fault : option nat) (c : Store.Conn Prize)
  : Response Prize * Session Prize :=
  try_catch_finally (draw_body participantName u others)
    "Failed to draw lottery" fault c.
End IndexTs.

(** ** [src/unnamed/part_000] *)
Module Part000.
Import Task.
Local Open Scope task_scope.

Record Prize := mkPrize {
  id : Z;
  name : string;
  total_quantity : Z;
  remaining_quantity : Z;
  color : string
}.

#[global] Instance Prize_row : PrizeRow Prize := {|
  row_id := id;
  row_remaining := remaining_quantity;
  row_set_remaining p r :=
    mkPrize (id p) (name p) (total_quantity p) r (color p);
  row_id_set _ _ := eq_refl;
  row_remaining_set _ _ := eq_refl
|}.

(** The weight column of this file. *)
Definition weight (prize : Prize) : Q := inject_Z (total_quantity prize).

(** [prizes.reduce((sum, prize) => sum + prize.total_quantity, 0)]. *)
Definition totalWeight (prizes : list Prize) : Q :=
  fold_left (fun sum prize => (sum + inject_Z (total_quantity prize))%Q)
    prizes 0%Q.

(** The [for ... of] loop of [weightedRandom]. *)
Fixpoint walk (random : Q) (prizes : list Prize) : option Prize :=
  match prizes with
  | [] => None
  | prize :: rest =>
      let random := (random - inject_Z (total_quantity prize))%Q in
      if Qle_bool random 0 then Some prize else walk random rest
  end.

(** [Math.random() * totalWeight], for [Math.random() = u]. *)
Definition random_start (u : Q) (prizes : list Prize) : Q :=
  (u * totalWeight prizes)%Q.

Definition weightedRandom (u : Q) (prizes : list Prize) : option Prize :=
  let random := random_start u prizes in
  match walk random prizes with
  | Some prize => Some prize
  | None => js_index prizes (js_length prizes - 1)
  end.

Definition call_weightedRandom (u : Q) (prizes : list Prize)
  : Task Prize (option Prize) :=
  step [CallWeightedRandom prizes] (fun c => c) ;;
  ret (weightedRandom u prizes).

(** The body of the [try] block of [POST /api/lottery/draw].  [others] are
    the draws that try to commit between this handler's read of the prizes
    and its UPDATE. *)
Definition draw_body (u : Q) (others : list Z)
  : Task Prize (Response Prize) :=
  beginTransaction ;;
  prizes <- select_eligible_prizes true ;;
  if js_length prizes =? 0 then
    rollback ;;
    ret (JsonError 400 "沒有可用的獎項")
  else
    selectedPrize <- call_weightedRandom u prizes ;;
    match selectedPrize with
    | None => throw
    | Some selectedPrize =>
        meanwhile others ;;
        _ <- decrement_prize (id selectedPrize) ;;
        commit ;;
        ret (Json200 None selectedPrize)
    end.

Definition draw (u : Q) (others : list Z) (fault : option nat)
    (c : Store.Conn Prize) : Response Prize * Session Prize :=
  try_catch_finally (draw_body u others) "抽獎失敗" fault c.
End Part000.


(** ** Sample data *)
Module Examples.

(** The prizes of the spec's example, [{id:1,w:10,rem:5},{id:2,w:90,rem:5}],
    as rows of each file. *)
Definition index_first := IndexTs.mkPrize 1 "first" 5 5 10 "gold".
Definition index_second := IndexTs.mkPrize 2 "second" 5 5 90 "silver".
Definition index_two := [index_first; index_second].

Definition part_first := Part000.mkPrize 1 "first" 10 5 "gold".
Definition part_second := Part000.mkPrize 2 "second" 90 5 "silver".
Definition part_two := [part_first; part_second].

(** Percentages that add up to 100, the third prize out of stock. *)
Definition index_small := IndexTs.mkPrize 1 "small" 5 5 10 "white".
Definition index_medium := IndexTs.mkPrize 2 "medium" 5 5 20 "blue".
Definition index_sold_out := IndexTs.mkPrize 3 "big" 5 0 70 "red".
Definition index_three := [index_small; index_medium; index_sold_out].

(** One prize with one unit left. *)
Definition index_last_unit := IndexTs.mkPrize 1 "last" 3 1 100 "gold".
Definition index_last_db : Store.Db IndexTs.Prize :=
  Store.mkDb [index_last_unit] [] [].

Definition part_db : Store.Db Part000.Prize := Store.mkDb part_two [] [].
Definition index_db : Store.Db IndexTs.Prize := Store.mkDb index_two [] [].

(** Nothing in stock. *)
Definition index_empty_db : Store.Db IndexTs.Prize :=
  Store.mkDb [index_sold_out] [] [].
Definition part_sold_out := Part000.mkPrize 3 "big" 70 0 "red".
Definition part_empty_db : Store.Db Part000.Prize :=
  Store.mkDb [part_sold_out] [] [].
End Examples.

(** ** The other routes

    The routes outside the draw send one statement each through
    [pool.execute], with autocommit and no transaction of their own. *)
Module Pool.
Section Pool.
Context {P : Type} {PR : PrizeRow P}.

(** [await pool.execute(sql, params)]: the statement runs, unless the call
    rejects ([rejects = true]), in which case nothing is written. *)
Definition execute {A : Type} (rejects : bool)
    (run : Store.Conn P -> A * Store.Conn P) (c : Store.Conn P)
  : option A * Store.Conn P :=
  if rejects then (None, c) else let (a, c') := run c in (Some a, c').
End Pool.

(** [res.json(body)] or [res.status(status).json({ error })]. *)
Inductive Reply (A : Type) :=
| Json (body : A)
| Failure (status : Z) (error : string).
Arguments Failure {A}.
End Pool.

(** The routes of [src/index.ts] other than the draw. *)
Module IndexRoutes.
Import IndexTs.

(** [ORDER BY probability ASC], as an insertion sort that keeps rows of equal
    probability in table order (the order MySQL gives them is not fixed). *)
Fixpoint insert_by_probability (p : Prize) (sorted : list Prize) : list Prize :=
  match sorted with
  | [] => [p]
  | q :: rest =>
      if Qle_bool (probability p) (probability q)
      then p :: q :: rest
      else q :: insert_by_probability p rest
  end.

Definition order_by_probability (rows : list Prize) : list Prize :=
  fold_right insert_by_probability [] rows.

(** [GET /api/prizes]. *)
Definition get_prizes (rejects : bool) (c : Store.Conn Prize)
  : Pool.Reply (list Prize) * Store.Conn Prize :=
  match
    Pool.execute rejects
      (fun c => (order_by_probability (Store.prizes (Store.view c)), c)) c
  with
  | (Some rows, c') => (Pool.Json rows, c')
  | (None, c') => (Pool.Failure 500 "Failed to fetch prizes", c')
  end.

(** The body of [PUT /api/prizes/:id], every field present. *)
Record PrizeBody := mkPrizeBody {
  body_name : string;
  body_total_quantity : Z;
  body_remaining_quantity : Z;
  body_probability : Q;
  body_color : string
}.

(** [UPDATE prizes SET name = ?, total_quantity = ?, remaining_quantity = ?,
     probability = ?, color = ? WHERE id = ?]. *)
Definition update_row (target : Z) (body : PrizeBody) (p : Prize) : Prize :=
  if id p =? target
  then mkPrize (id p) (body_name body) (body_total_quantity body)
         (body_remaining_quantity body) (body_probability body)
         (body_color body)
  else p.

Definition update_prize (target : Z) (body : PrizeBody) (rows : list Prize)
  : list Prize :=
  map (update_row target body) rows.

(** [PUT /api/prizes/:id], for the numeric value [target] of [req.params.id]. *)
Definition put_prize (target : Z) (body : PrizeBody) (rejects : bool)
    (c : Store.Conn Prize) : Pool.Reply string * Store.Conn Prize :=
  match
    Pool.execute rejects
      (fun c => (tt, Store.write (Store.with_prizes (update_prize target body)) c))
      c
  with
  | (Some _, c') => (Pool.Json "Prize updated successfully"%string, c')
  | (None, c') => (Pool.Failure 500 "Failed to update prize", c')
  end.

(** [names.map(() => '(?)').join(',')]. *)
Definition placeholders (names : list string) : string :=
  String.concat "," (map (fun _ => "(?)"%string) names).

(** [`INSERT INTO participants (name) VALUES ${placeholders}`]. *)
Definition insert_query (names : list string) : string :=
  ("INSERT INTO participants (name) VALUES " ++ placeholders names)%string.

(** The rows one multi-row INSERT adds, in the order of [names]. *)
Definition add_participants (names : list string) (db : Store.Db Prize)
  : Store.Db Prize :=
  fold_left (fun db name => snd (Store.add_participant name db)) names db.

(** The body of the success response of [POST /api/participants]. *)
Record Added := mkAdded {
  message : string;
  count : Z
}.

(** [POST /api/participants].  [names] is [req.body.names] when it is an array
    (of strings), [None] otherwise. *)
Definition post_participants (names : option (list string)) (rejects : bool)
    (c : Store.Conn Prize) : Pool.Reply Added * Store.Conn Prize :=
  match names with
  | None | Some [] => (Pool.Failure 400 "Invalid participant names", c)
  | Some names =>
      match
        Pool.execute rejects
          (fun c => (tt, Store.write (add_participants names) c)) c
      with
      | (Some _, c') =>
          (Pool.Json (mkAdded "Participants added successfully" (js_length names)),
           c')
      | (None, c') => (Pool.Failure 500 "Failed to add participants", c')
      end
  end.
End IndexRoutes.

(** ** Draws one after another

    Each request takes an idle connection on what the previous one committed;
    no store call fails and no other draw runs in between. *)
Module Sequence.

Definition succeeded {P : Type} (r : Task.Response P) : bool :=
  match r with
  | Task.Json200 _ _ => true
  | Task.JsonError _ _ => false
  end.

(** The units in stock, over the whole table. *)
Definition stock {P : Type} {PR : PrizeRow P} (rows : list P) : Z :=
  fold_right (fun p total => row_remaining p + total) 0 rows.

(** [part_000]: one draw per value of [Math.random()]. *)
Fixpoint part000_draws (us : list Q) (db : Store.Db Part000.Prize)
  : list (Task.Response Part000.Prize) * Store.Db Part000.Prize :=
  match us with
  | [] => ([], db)
  | u :: rest =>
      let result := Part000.draw u [] None (Store.idle db) in
      let (responses, final) :=
        part000_draws rest (Store.committed (Task.conn (snd result))) in
      (fst result :: responses, final)
  end.

(** [index.ts]: one draw per participant name and value of [Math.random()]. *)
Fixpoint index_draws (requests : list (string * Q)) (db : Store.Db IndexTs.Prize)
  : list (Task.Response IndexTs.Prize) * Store.Db IndexTs.Prize :=
  match requests with
  | [] => ([], db)
  | (participantName, u) :: rest =>
      let result :=
        IndexTs.draw (Some participantName) u [] None (Store.idle db) in
      let (responses, final) :=
        index_draws rest (Store.committed (Task.conn (snd result))) in
      (fst result :: responses, final)
  end.

Definition successes {P : Type} (responses : list (Task.Response P)) : nat :=
  List.length (filter succeeded responses).
End Sequence.

(** A list ends with [suffix]. *)
Definition ends_with {A : Type} (xs suffix : list A) : Prop :=
  exists front, xs = front ++ suffix.

Definition is_release {P : Type} (ev : Task.Event P) : bool :=
  match ev with
  | Task.Release => true
  | _ => false
  end.

(** More sample data. *)
Module MoreExamples.

(** The tables after a first draw of "bob". *)
Definition after_bob : Store.Db IndexTs.Prize :=
  Store.committed
    (Task.conn (snd (IndexTs.draw (Some "bob"%string) (1 # 20) [] None
                       (Store.idle Examples.index_db)))).

(** The tables after "ann" and "bob" were added as participants. *)
Definition posted : Store.Db IndexTs.Prize :=
  Store.committed
    (snd (IndexRoutes.post_participants (Some ["ann"; "bob"]%string) false
            (Store.idle Examples.index_db))).
End MoreExamples.

(** ** The selection walk in double precision

    A JavaScript number is an IEEE 754 binary64 value, and the result of an
    arithmetic operation is the exact result rounded to such a value.  The
    finite doubles are the rationals [m * 2 ^ e] with [|m| < 2 ^ 53] and
    [-1074 <= e <= 971]. *)
Module Double.

(** [m * 2 ^ e]. *)
Definition dyadic (m e : Z) : Q := (inject_Z m * 2 ^ e)%Q.

(** [q] is the value of a finite double. *)
Definition representable (q : Q) : Prop :=
  exists m e, Z.abs m < 2 ^ 53 /\ -1074 <= e <= 971 /\ (q == dyadic m e)%Q.

(** What is used of the rounding [fl] of an exact result: a double is not
    changed, and the order of two results is kept.  Rounding to nearest, the
    mode of JavaScript, is such a function on the finite range. *)
Definition rounding (fl : Q -> Q) : Prop :=
  (forall q, representable q -> (fl q == q)%Q) /\
  (forall a b, (a <= b)%Q -> (fl a <= fl b)%Q).

(** A weight that is a whole number: a quantity, or a whole percentage. *)
Definition whole (q : Q) : Prop :=
  exists n : Z, 0 <= n /\ (q == inject_Z n)%Q.

Section Rounded.
Variable fl : Q -> Q.
Variable Row : Type.
Variable weight : Row -> Q.

(** The [for ... of] loop of [weightedRandom]; [random -= prize.<weight>]
    stores the rounded difference. *)
Fixpoint walk (random : Q) (prizes : list Row) : option Row :=
  match prizes with
  | [] => None
  | prize :: rest =>
      let random := fl (random - weight prize)%Q in
      if Qle_bool random 0 then Some prize else walk random rest
  end.
End Rounded.

(** [weightedRandom] of [src/index.ts]; [Math.random() * 100] is the rounded
    product. *)
Definition index_weightedRandom (fl : Q -> Q) (u : Q)
    (prizes : list IndexTs.Prize) : option IndexTs.Prize :=
  let random := fl (u * 100)%Q in
  match walk fl IndexTs.weight random prizes with
  | Some prize => Some prize
  | None => js_index prizes (js_length prizes - 1)
  end.

(** *** Rounding to nearest, ties to even

    [round64] rounds a rational to the nearest double, a tie to the one with
    an even significand.  Beyond the largest double JavaScript gives
    [Infinity]; [round64] goes on with the same precision, and no value of
    that size occurs here. *)

(** The integer part of the binary logarithm of a positive rational. *)
Definition ilog2 (q : Q) : Z :=
  let k := Z.log2 (Qnum q) - Z.log2 (Zpos (Qden q)) in
  if Qle_bool (2 ^ k) q then k else k - 1.

(** The nearest integer, a tie going to the even one. *)
Definition nearest_even (x : Q) : Z :=
  let f := Qfloor x in
  match (x - inject_Z f ?= 1 # 2)%Q with
  | Lt => f
  | Eq => if Z.even f then f else f + 1
  | Gt => f + 1
  end.

(** The exponent of the last place of the doubles around [q > 0]: 53 bits of
    significand, and no exponent below that of the subnormal numbers. *)
Definition exponent (q : Q) : Z := Z.max (-1074) (ilog2 q - 52).

Definition round_magnitude (q : Q) : Q :=
  let e := exponent q in dyadic (nearest_even (q / 2 ^ e)) e.

Definition round64 (q : Q) : Q :=
  if Qle_bool 0 q then round_magnitude q else (- round_magnitude (- q))%Q.

(** Three probabilities with two decimals, as the doubles they are read as. *)
Definition fractional : list IndexTs.Prize :=
  [IndexTs.mkPrize 1 "first" 5 5 (round64 (478 # 100)) "gold";
   IndexTs.mkPrize 2 "second" 5 5 (round64 (1618 # 100)) "silver";
   IndexTs.mkPrize 3 "third" 5 5 (round64 (1724 # 100)) "bronze"].
End Double.

(** ** Running a handler

    [task_unfold] executes a handler on a connection whose fault position is a
    numeral; [each_fault] enumerates the positions a handler can reach. *)

Ltac task_unfold :=
  cbv beta iota zeta delta
    [Part000.draw Part000.draw_body IndexTs.draw IndexTs.draw_body
     Part000.call_weightedRandom IndexTs.call_weightedRandom
     Task.try_catch_finally Task.bind Task.ret Task.throw Task.await
     Task.step Task.log
     Task.beginTransaction Task.commit Task.rollback Task.release
     Task.meanwhile Task.select_participants Task.insert_participant
     Task.select_eligible_prizes Task.insert_lottery_record
     Task.decrement_prize
     Task.conn Task.calls Task.trace fst snd app
     Store.view Store.idle Store.begin Store.commit Store.rollback
     Store.write Store.interleave Store.work Store.committed Store.locked
     Store.add_participant Store.add_record Store.with_prizes
     Store.prizes Store.participants Store.lottery_records
     option_map Nat.eqb].

Ltac run_with rw := repeat (progress (task_unfold; rw)).

Ltac each_fault fault :=
  let n := fresh "n" in
  destruct fault as [n |]; [do 7 (try (destruct n as [| n])) |].

Ltac close_case :=
  repeat split;
  solve [ reflexivity | congruence | discriminate
        | left; reflexivity | right; reflexivity ].

Ltac trace_cases :=
  let H := fresh "Hev" in
  cbn [In]; intros H;
  repeat (destruct H as [H | H];
          [ subst; cbn; first [ exact I | reflexivity
                              | split; [reflexivity | discriminate] ] |]);
  destruct H.

(** * Properties *)

(** ** Arrays *)

Lemma js_length_nil_eqb (A : Type) : (js_length (@nil A) =? 0) = true.
Proof. reflexivity. Qed.

Lemma js_length_cons_eqb (A : Type) (x : A) (xs : list A) :
(js_length (x :: xs) =? 0) = false.
Proof. unfold js_length. apply Z.eqb_neq. simpl List.length. lia. Qed.

Lemma js_index_last (A : Type) (front : list A) (x : A) :
js_index (front ++ [x]) (js_length (front ++ [x]) - 1) = Some x.
Proof.
unfold js_index, js_length.
rewrite length_app. simpl List.length.
replace (Z.of_nat (List.length front + 1) - 1) with (Z.of_nat (List.length front)) by lia.
destruct (Z.ltb_spec (Z.of_nat (List.length front)) 0) as [Hneg | _]; [lia |].
rewrite Nat2Z.id, nth_error_app2 by lia.
now rewrite Nat.sub_diag.
Qed.

Lemma nonempty_snoc (A : Type) (xs : list A) :
xs <> [] -> exists front x, xs = front ++ [x].
Proof.
intros Hne. destruct (exists_last Hne) as (front & x & ->). eauto.
Qed.

(** ** The walk *)
Module WalkFacts.
Section WalkFacts.
Variable Row : Type.
Variable weight : Row -> Q.

Local Abbreviation walk := (Walk.walk weight).
Local Abbreviation running := (Walk.running weight).

Lemma running_cons r p ps :
  running r (p :: ps) = running (r - weight p)%Q ps.
Proof. reflexivity. Qed.

Lemma walk_In r ps p : walk r ps = Some p -> In p ps.
Proof.
  revert r. induction ps as [| q rest IH]; intros r; simpl.
  - discriminate.
  - destruct (Qle_bool (r - weight q) 0).
    + intros [= ->]. now left.
    + intros H. right. eauto.
Qed.

Lemma walk_stops r ps p : walk r ps = Some p -> Walk.stops_at weight r ps p.
Proof.
  revert r. induction ps as [| q rest IH]; intros r; simpl.
  - discriminate.
  - destruct (Qle_bool (r - weight q) 0) eqn:Hq.
    + intros [= ->]. exists [], rest. repeat split.
      * simpl. intros n Hn. lia.
      * simpl. now apply Qle_bool_iff.
    + intros Hw. destruct (IH _ Hw) as (before & after & -> & Hpos & Hstop).
      exists (q :: before), after. repeat split.
      * intros [| n] Hn; [lia |]. simpl firstn. rewrite running_cons.
        destruct n as [| n].
        -- simpl. apply Qnot_le_lt. intros Hle.
           apply Qle_bool_iff in Hle. congruence.
        -- apply Hpos. simpl in Hn. lia.
      * exact Hstop.
Qed.

Lemma walk_runs_off r ps : walk r ps = None -> Walk.runs_off weight r ps.
Proof.
  revert r. induction ps as [| q rest IH]; intros r; simpl.
  - intros _ n Hn. simpl in Hn. lia.
  - destruct (Qle_bool (r - weight q) 0) eqn:Hq; [discriminate |].
    intros Hw [| n] Hn; [lia |]. simpl firstn. rewrite running_cons.
    destruct n as [| n].
    + simpl. apply Qnot_le_lt. intros Hle.
      apply Qle_bool_iff in Hle. congruence.
    + apply (IH _ Hw). simpl in Hn. lia.
Qed.

(** On a non-empty array [select] returns a row of the array, chosen as
    [Walk.chosen] says. *)
Lemma select_chosen r ps :
  ps <> [] ->
  exists p, Walk.select weight r ps = Some p /\ In p ps /\ Walk.chosen weight r ps p.
Proof.
  intros Hne. unfold Walk.select.
  destruct (walk r ps) as [p |] eqn:Hw.
  - exists p. split; [reflexivity |]. split; [eapply walk_In; eauto |].
    left. now apply walk_stops.
  - destruct (nonempty_snoc Hne) as (front & x & ->).
    exists x. split; [apply js_index_last |]. split.
    + apply in_or_app. right. now left.
    + right. split; [now apply walk_runs_off | now exists front].
Qed.

(** The running value after the whole array is the start minus the sum. *)
Lemma weight_sum_from (acc : Q) ps :
  (fold_left (fun sum prize => sum + weight prize) ps acc
   == acc + Walk.weight_sum weight ps)%Q.
Proof.
  unfold Walk.weight_sum. revert acc.
  induction ps as [| q rest IH]; intros acc; simpl.
  - ring.
  - rewrite IH, (IH (0 + weight q)%Q). ring.
Qed.

Lemma weight_sum_cons p ps :
  (Walk.weight_sum weight (p :: ps) == weight p + Walk.weight_sum weight ps)%Q.
Proof.
  unfold Walk.weight_sum at 1. simpl. rewrite weight_sum_from. ring.
Qed.

Lemma weight_sum_positive ps :
  ps <> [] -> Forall (fun p => 0 < weight p)%Q ps ->
  (0 < Walk.weight_sum weight ps)%Q.
Proof.
  intros Hne Hall. induction Hall as [| p rest Hp Hrest IH]; [congruence |].
  rewrite weight_sum_cons. destruct rest as [| q rest'].
  - unfold Walk.weight_sum. simpl. lra.
  - assert (0 < Walk.weight_sum weight (q :: rest'))%Q by (apply IH; discriminate).
    lra.
Qed.
End WalkFacts.
End WalkFacts.

(** ** The store *)
Module StoreFacts.
Section StoreFacts.
Context {P : Type} {PR : PrizeRow P}.

(** The guarded decrement of one row: nothing, or exactly one unit off a
    positive stock. *)
Lemma decrement_row_cases id (p : P) :
  (Store.decrement_row id p = p /\ (row_id p <> id \/ row_remaining p <= 0)) \/
  (row_id p = id /\ 0 < row_remaining p /\
   Store.decrement_row id p = row_set_remaining p (row_remaining p - 1)).
Proof.
  unfold Store.decrement_row.
  destruct (Z.eqb_spec (row_id p) id) as [Hid | Hid];
    destruct (Z.ltb_spec 0 (row_remaining p)) as [Hpos | Hpos]; simpl; auto.
Qed.

Lemma decrement_row_id id (p : P) : row_id (Store.decrement_row id p) = row_id p.
Proof.
  destruct (decrement_row_cases id p) as [[-> _] | (_ & _ & ->)];
    [reflexivity | apply row_id_set].
Qed.

Lemma decrement_row_nonneg id (p : P) :
  0 <= row_remaining p -> 0 <= row_remaining (Store.decrement_row id p).
Proof.
  destruct (decrement_row_cases id p) as [[-> _] | (_ & Hpos & ->)]; [easy |].
  rewrite row_remaining_set. lia.
Qed.

Lemma decrement_nonneg id (ps : list P) :
  Store.nonneg ps -> Store.nonneg (Store.decrement id ps).
Proof.
  unfold Store.nonneg, Store.decrement. intros H. apply Forall_map.
  eapply Forall_impl; [| exact H]. intros p. apply decrement_row_nonneg.
Qed.

(** *** Eligible rows *)

Lemma eligible_In (ps : list P) p :
  In p (Store.eligible ps) <-> In p ps /\ 0 < row_remaining p.
Proof.
  unfold Store.eligible. rewrite filter_In. now rewrite Z.ltb_lt.
Qed.

Lemma eligible_nil_nonpos (ps : list P) :
  Store.eligible ps = [] -> forall p, In p ps -> row_remaining p <= 0.
Proof.
  intros Hnil p Hp.
  destruct (Z.ltb_spec 0 (row_remaining p)) as [Hpos | Hle]; [| exact Hle].
  assert (In p (Store.eligible ps)) as Hin by now apply eligible_In.
  rewrite Hnil in Hin. destruct Hin.
Qed.

(** *** Other draws *)

Lemma other_draw_nonneg held id (ps : list P) :
  Store.nonneg ps -> Store.nonneg (Store.other_draw held id ps).
Proof.
  unfold Store.nonneg, Store.other_draw. intros H. apply Forall_map.
  eapply Forall_impl; [| exact H]. intros p Hp. simpl.
  destruct (existsb (Z.eqb (row_id p)) held); [easy |].
  now apply decrement_row_nonneg.
Qed.

Lemma other_draws_nonneg held others (ps : list P) :
  Store.nonneg ps -> Store.nonneg (Store.other_draws held others ps).
Proof.
  unfold Store.other_draws. revert ps.
  induction others as [| id rest IH]; intros ps H; simpl; [easy |].
  apply IH. now apply other_draw_nonneg.
Qed.

Lemma other_draws_nil held (ps : list P) : Store.other_draws held [] ps = ps.
Proof. reflexivity. Qed.

(** No other draw can change a table whose rows with stock are all held. *)
Lemma other_draw_held held id (ps : list P) :
  (forall p, In p ps -> 0 < row_remaining p -> In (row_id p) held) ->
  Store.other_draw held id ps = ps.
Proof.
  intros Hheld. unfold Store.other_draw.
  rewrite <- (map_id ps) at 2. apply map_ext_in. intros p Hp.
  destruct (existsb (Z.eqb (row_id p)) held) eqn:Hex; [reflexivity |].
  destruct (decrement_row_cases id p) as [[-> _] | (_ & Hpos & _)]; [reflexivity |].
  exfalso. specialize (Hheld p Hp Hpos).
  assert (existsb (Z.eqb (row_id p)) held = true) as Habs.
  { apply existsb_exists. exists (row_id p). split; [exact Hheld | apply Z.eqb_refl]. }
  congruence.
Qed.

Lemma other_draws_held held others (ps : list P) :
  (forall p, In p ps -> 0 < row_remaining p -> In (row_id p) held) ->
  Store.other_draws held others ps = ps.
Proof.
  intros Hheld. unfold Store.other_draws.
  induction others as [| id rest IH]; simpl; [reflexivity |].
  now rewrite other_draw_held.
Qed.

Lemma other_draws_locked others (ps : list P) :
  Store.other_draws (map row_id (Store.eligible ps)) others ps = ps.
Proof.
  apply other_draws_held. intros p Hp Hpos.
  apply in_map. now apply eligible_In.
Qed.

Lemma other_draw_ids held id (ps : list P) :
  map row_id (Store.other_draw held id ps) = map row_id ps.
Proof.
  unfold Store.other_draw. rewrite map_map. apply map_ext. intros p.
  destruct (existsb (Z.eqb (row_id p)) held); [reflexivity |].
  apply decrement_row_id.
Qed.

Lemma other_draws_ids held others (ps : list P) :
  map row_id (Store.other_draws held others ps) = map row_id ps.
Proof.
  unfold Store.other_draws. revert ps.
  induction others as [| id rest IH]; intros ps; simpl; [reflexivity |].
  now rewrite IH, other_draw_ids.
Qed.

Lemma other_draw_keeps held id (ps : list P) p :
  In p ps -> row_id p <> id -> In p (Store.other_draw held id ps).
Proof.
  intros Hp Hne. unfold Store.other_draw. apply in_map_iff. exists p.
  split; [| exact Hp].
  destruct (existsb (Z.eqb (row_id p)) held); [reflexivity |].
  destruct (decrement_row_cases id p) as [[-> _] | (Heq & _)]; easy.
Qed.

Lemma other_draws_keeps held others (ps : list P) p :
  In p ps -> ~ In (row_id p) others -> In p (Store.other_draws held others ps).
Proof.
  unfold Store.other_draws. revert ps.
  induction others as [| id rest IH]; intros ps Hp Hnot; simpl; [exact Hp |].
  apply IH.
  - apply other_draw_keeps; [exact Hp |]. intros Heq. apply Hnot. now left.
  - intros Hin. apply Hnot. now right.
Qed.

(** *** Unique ids *)

Lemma unique_row (ps : list P) p q :
  Store.unique_ids ps -> In p ps -> In q ps -> row_id p = row_id q -> p = q.
Proof.
  unfold Store.unique_ids.
  induction ps as [| a rest IH]; simpl; [easy |].
  intros Hnd Hp Hq Hid. inversion Hnd as [| ? ? Hnotin Hnd']; subst.
  destruct Hp as [-> | Hp]; destruct Hq as [-> | Hq]; auto.
  - exfalso. apply Hnotin. rewrite Hid. now apply in_map.
  - exfalso. apply Hnotin. rewrite <- Hid. now apply in_map.
Qed.

(** With no row left to decrement the UPDATE changes nothing. *)
Lemma affected_zero_noop id (ps : list P) :
  Store.affected id ps = 0 -> Store.decrement id ps = ps.
Proof.
  unfold Store.affected, js_length, Store.decrement. intros Hz.
  assert (filter (fun p => (row_id p =? id) && (0 <? row_remaining p)) ps = [])
    as Hnil by (destruct (filter _ ps); [reflexivity | simpl in Hz; lia]).
  rewrite <- (map_id ps) at 2. apply map_ext_in. intros p Hp.
  unfold Store.decrement_row.
  destruct ((row_id p =? id) && (0 <? row_remaining p)) eqn:Hc; [| reflexivity].
  assert (In p []) as [] . rewrite <- Hnil. apply filter_In. now split.
Qed.

(** With unique ids the UPDATE of a row with stock takes one unit off that
    row and leaves every other row alone. *)
Lemma decrement_one (ps : list P) sel :
  Store.unique_ids ps -> In sel ps -> 0 < row_remaining sel ->
  Store.one_decrement ps (Store.decrement (row_id sel) ps) sel.
Proof.
  unfold Store.unique_ids. intros Hu Hin Hpos.
  destruct (in_split _ _ Hin) as (front & back & ->).
  rewrite map_app in Hu. simpl in Hu. apply NoDup_remove_2 in Hu.
  assert (forall q, In q front \/ In q back ->
                    Store.decrement_row (row_id sel) q = q) as Hother.
  { intros q Hq.
    destruct (decrement_row_cases (row_id sel) q) as [[-> _] | (Heq & _)];
      [reflexivity |].
    exfalso. apply Hu. rewrite <- Heq. apply in_or_app.
    destruct Hq as [Hq | Hq]; [left | right]; now apply in_map. }
  exists front, back. split; [reflexivity |]. split; [exact Hpos |].
  unfold Store.decrement. rewrite map_app. simpl. f_equal; [| f_equal].
  - rewrite <- (map_id front) at 2. apply map_ext_in. auto.
  - unfold Store.decrement_row. rewrite Z.eqb_refl.
    now replace (0 <? row_remaining sel) with true
      by (symmetry; now apply Z.ltb_lt).
  - rewrite <- (map_id back) at 2. apply map_ext_in. auto.
Qed.

Lemma with_prizes_same (f : list P -> list P) (db : Store.Db P) :
  f (Store.prizes db) = Store.prizes db -> Store.with_prizes f db = db.
Proof. destruct db. unfold Store.with_prizes. simpl. now intros ->. Qed.

(** Other draws find nothing to decrement when nothing is in stock. *)
Lemma other_draws_sold_out held others (ps : list P) :
  Store.eligible ps = [] -> Store.other_draws held others ps = ps.
Proof.
  intros Hnil. apply other_draws_held. intros p Hp Hpos.
  pose proof (eligible_nil_nonpos _ Hnil p Hp). lia.
Qed.

Lemma affected_pos id (ps : list P) p :
  In p ps -> row_id p = id -> 0 < row_remaining p -> 0 < Store.affected id ps.
Proof.
  intros Hp Hid Hpos. unfold Store.affected, js_length.
  assert (In p (filter (fun p => (row_id p =? id) && (0 <? row_remaining p)) ps)) as Hin.
  { apply filter_In. split; [exact Hp |].
    apply andb_true_iff. split; [now apply Z.eqb_eq | now apply Z.ltb_lt]. }
  destruct (filter _ ps); [destruct Hin | simpl; lia].
Qed.
End StoreFacts.
End StoreFacts.

(** ** [weightedRandom] in both files is the generic selection *)

Lemma IndexTs_walk r ps : IndexTs.walk r ps = Walk.walk IndexTs.weight r ps.
Proof.
  revert r. induction ps as [| p rest IH]; intros r; simpl; [reflexivity |].
  now rewrite IH.
Qed.

Lemma IndexTs_select u ps :
  IndexTs.weightedRandom u ps
  = Walk.select IndexTs.weight (IndexTs.random_start u) ps.
Proof. unfold IndexTs.weightedRandom, Walk.select. now rewrite IndexTs_walk. Qed.

Lemma Part000_walk r ps : Part000.walk r ps = Walk.walk Part000.weight r ps.
Proof.
  revert r. induction ps as [| p rest IH]; intros r; simpl; [reflexivity |].
  now rewrite IH.
Qed.

Lemma Part000_select u ps :
  Part000.weightedRandom u ps
  = Walk.select Part000.weight (Part000.random_start u ps) ps.
Proof. unfold Part000.weightedRandom, Walk.select. now rewrite Part000_walk. Qed.

Lemma Part000_totalWeight ps :
  Part000.totalWeight ps = Walk.weight_sum Part000.weight ps.
Proof. reflexivity. Qed.

Lemma IndexTs_weightedRandom_some u ps :
  ps <> [] -> exists p, IndexTs.weightedRandom u ps = Some p /\ In p ps.
Proof.
  intros Hne. rewrite IndexTs_select.
  destruct (WalkFacts.select_chosen IndexTs.weight (IndexTs.random_start u) Hne)
    as (p & Hp & Hin & _).
  eauto.
Qed.

Lemma Part000_weightedRandom_some u ps :
  ps <> [] -> exists p, Part000.weightedRandom u ps = Some p /\ In p ps.
Proof.
  intros Hne. rewrite Part000_select.
  destruct (WalkFacts.select_chosen Part000.weight (Part000.random_start u ps) Hne)
    as (p & Hp & Hin & _).
  eauto.
Qed.

(** ** The endpoints, case by case *)

(** Every run of the endpoint of [part_000] ends in one of three ways. *)
Lemma Part000_draw_cases u others fault db :
  let result := Part000.draw u others fault (Store.idle db) in
  let rows := Store.eligible (Store.prizes db) in
  (fst result = Task.JsonError 500 "抽獎失敗" /\ fault <> None /\
   Task.conn (snd result) = Store.idle db)
  \/
  (fst result = Task.JsonError 400 "沒有可用的獎項" /\ rows = [] /\
   Task.conn (snd result) = Store.idle db)
  \/
  (exists sel,
      rows <> [] /\ Part000.weightedRandom u rows = Some sel /\
      fst result = Task.Json200 None sel /\
      Task.conn (snd result)
      = Store.idle (Store.with_prizes (Store.decrement (Part000.id sel)) db)).
Proof.
  intros result rows. subst result rows.
  destruct db as [table people records]; cbn [Store.prizes].
  destruct (Store.eligible table) as [| p rows] eqn:Hrows.
  - each_fault fault;
      run_with ltac:(rewrite ?Hrows, ?js_length_nil_eqb).
    all: first [ left; close_case | right; left; close_case ].
  - destruct (@Part000_weightedRandom_some u (p :: rows)) as (sel & Hsel & Hin);
      [discriminate |].
    assert (Store.other_draws (map row_id (p :: rows)) others table = table)
      as Hheld.
    { rewrite <- Hrows. apply StoreFacts.other_draws_locked. }
    each_fault fault;
      run_with ltac:(rewrite ?Hrows, ?js_length_cons_eqb, ?Hsel, ?Hheld).
    all: first [ left; close_case
               | right; right; exists sel; close_case ].
Qed.

(** Every run of the endpoint of [index.ts] ends in one of four ways. *)
Lemma IndexTs_draw_cases name u others fault db :
  let result := IndexTs.draw name u others fault (Store.idle db) in
  let rows := Store.eligible (Store.prizes db) in
  (fst result = Task.JsonError 400 "Participant name is required" /\
   (name = None \/ name = Some ""%string) /\
   Task.conn (snd result)
   = {| Store.committed := db; Store.work := Some db; Store.locked := [] |})
  \/
  (fst result = Task.JsonError 500 "Failed to draw lottery" /\ fault <> None /\
   (Task.conn (snd result) = Store.idle db \/
    Task.conn (snd result)
    = Store.idle (Store.with_prizes (Store.other_draws [] others) db)))
  \/
  (fst result = Task.JsonError 400 "No prizes available" /\ rows = [] /\
   Task.conn (snd result) = Store.idle db)
  \/
  (exists participantName sel,
      name = Some participantName /\ participantName <> ""%string /\
      rows <> [] /\ IndexTs.weightedRandom u rows = Some sel /\
      let participantId := fst (IndexTs.find_or_create participantName db) in
      fst result
      = Task.Json200 (Some (mkParticipant participantId participantName)) sel /\
      Task.conn (snd result)
      = Store.idle
          (Store.with_prizes (Store.decrement (IndexTs.id sel))
             (Store.with_prizes (Store.other_draws [] others)
                (Store.add_record participantId (IndexTs.id sel)
                   (snd (IndexTs.find_or_create participantName db)))))).
Proof.
  intros result rows. subst result rows.
  destruct db as [table people records]; cbn [Store.prizes].
  destruct name as [[| a name] |].
  1, 3: each_fault fault; run_with idtac;
        first [ left; split; [reflexivity | close_case]
              | right; left; split; [reflexivity | close_case] ].
  destruct (Store.named (String a name) people)
    as [| first found] eqn:Hfound;
  destruct (Store.eligible table) as [| p rows] eqn:Hrows.
  1, 3:
    each_fault fault;
    run_with ltac:(rewrite ?Hfound, ?Hrows, ?js_length_nil_eqb);
    first [ right; left; split; [reflexivity | close_case]
          | right; right; left; split; [reflexivity | close_case] ].
  all: destruct (@IndexTs_weightedRandom_some u (p :: rows)) as (sel & Hsel & Hin);
      [discriminate |].
  all: each_fault fault;
    run_with ltac:(rewrite ?Hfound, ?Hrows, ?js_length_cons_eqb, ?Hsel);
    first [ right; left; split; [reflexivity | close_case]
          | right; right; right; exists (String a name), sel;
            unfold IndexTs.find_or_create; cbn [Store.participants];
            rewrite Hfound; close_case ].
Qed.

(** ** The trace of a run

    What a run can have in its trace: a call of [weightedRandom] only on the
    eligible rows, and only when there are some; a read of the prizes only
    with the locking clause of its file. *)

Lemma Part000_draw_trace u others fault db ev :
  In ev (Task.trace (snd (Part000.draw u others fault (Store.idle db)))) ->
  match ev with
  | Task.CallWeightedRandom ps =>
      ps = Store.eligible (Store.prizes db) /\ ps <> []
  | Task.Execute (SelectEligiblePrizes for_update) => for_update = true
  | _ => True
  end.
Proof.
  destruct db as [table people records]; cbn [Store.prizes].
  destruct (Store.eligible table) as [| p rows] eqn:Hrows.
  - each_fault fault;
      run_with ltac:(rewrite ?Hrows, ?js_length_nil_eqb); trace_cases.
  - destruct (@Part000_weightedRandom_some u (p :: rows)) as (sel & Hsel & Hin);
      [discriminate |].
    each_fault fault;
      run_with ltac:(rewrite ?Hrows, ?js_length_cons_eqb, ?Hsel); trace_cases.
Qed.

Lemma IndexTs_draw_trace name u others fault db ev :
  In ev (Task.trace (snd (IndexTs.draw name u others fault (Store.idle db)))) ->
  match ev with
  | Task.CallWeightedRandom ps =>
      ps = Store.eligible (Store.prizes db) /\ ps <> []
  | Task.Execute (SelectEligiblePrizes for_update) => for_update = false
  | _ => True
  end.
Proof.
  destruct db as [table people records]; cbn [Store.prizes].
  destruct name as [[| a name] |].
  1, 3: each_fault fault; run_with idtac; trace_cases.
  destruct (Store.named (String a name) people)
    as [| first found] eqn:Hfound;
  destruct (Store.eligible table) as [| p rows] eqn:Hrows.
  1, 3:
    each_fault fault;
    run_with ltac:(rewrite ?Hfound, ?Hrows, ?js_length_nil_eqb); trace_cases.
  all: destruct (@IndexTs_weightedRandom_some u (p :: rows)) as (sel & Hsel & Hin);
      [discriminate |].
  all: each_fault fault;
    run_with ltac:(rewrite ?Hfound, ?Hrows, ?js_length_cons_eqb, ?Hsel);
    trace_cases.
Qed.

(** ** What a run leaves behind *)

Lemma find_or_create_prizes name (db : Store.Db IndexTs.Prize) :
  Store.prizes (snd (IndexTs.find_or_create name db)) = Store.prizes db.
Proof.
  unfold IndexTs.find_or_create.
  now destruct (Store.named name (Store.participants db)).
Qed.

Lemma find_or_create_records name (db : Store.Db IndexTs.Prize) :
  Store.lottery_records (snd (IndexTs.find_or_create name db))
  = Store.lottery_records db.
Proof.
  unfold IndexTs.find_or_create.
  now destruct (Store.named name (Store.participants db)).
Qed.

(** What a successful run of [index.ts] leaves behind. *)
Lemma IndexTs_success name u others fault db participant sel :
  fst (IndexTs.draw name u others fault (Store.idle db))
  = Task.Json200 participant sel ->
  let final := Task.conn (snd (IndexTs.draw name u others fault (Store.idle db))) in
  exists who,
    participant = Some who /\
    In sel (Store.eligible (Store.prizes db)) /\
    Store.work final = None /\
    Store.prizes (Store.committed final)
    = Store.decrement (IndexTs.id sel)
        (Store.other_draws [] others (Store.prizes db)) /\
    Store.lottery_records (Store.committed final)
    = Store.lottery_records db
        ++ [mkLotteryRecord (next_id (map record_id (Store.lottery_records db)))
              (participant_id who) (IndexTs.id sel)].
Proof.
  intros Hres final. subst final.
  destruct (IndexTs_draw_cases name u others fault db)
    as [(Hr & _) | [(Hr & _) | [(Hr & _) | Hok]]]; try congruence.
  destruct Hok as (pname & sel' & _ & _ & Hne & Hsel & Hr & ->).
  cbv zeta in Hr. rewrite Hr in Hres. injection Hres as <- <-.
  eexists. split; [reflexivity |]. split.
  { destruct (@IndexTs_weightedRandom_some u _ Hne) as (q & Hq & Hin).
    congruence. }
  split; [reflexivity |].
  cbn [Store.idle Store.committed Store.with_prizes Store.add_record
       Store.prizes Store.lottery_records participant_id].
  now rewrite find_or_create_prizes, find_or_create_records.
Qed.

Lemma Part000_success u others fault db participant sel :
  fst (Part000.draw u others fault (Store.idle db))
  = Task.Json200 participant sel ->
  let final := Task.conn (snd (Part000.draw u others fault (Store.idle db))) in
  In sel (Store.eligible (Store.prizes db)) /\
  final = Store.idle (Store.with_prizes (Store.decrement (Part000.id sel)) db).
Proof.
  intros Hres final. subst final.
  destruct (Part000_draw_cases u others fault db)
    as [(Hr & _) | [(Hr & _) | Hok]]; try congruence.
  destruct Hok as (sel' & Hne & Hsel & Hr & ->).
  rewrite Hr in Hres. injection Hres as <- <-.
  split; [| reflexivity].
  destruct (@Part000_weightedRandom_some u _ Hne) as (q & Hq & Hin).
  congruence.
Qed.

(** What a failed run leaves behind. *)
Lemma IndexTs_failure name u others fault db status error :
  fst (IndexTs.draw name u others fault (Store.idle db))
  = Task.JsonError status error ->
  let after :=
    Store.committed
      (Task.conn (snd (IndexTs.draw name u others fault (Store.idle db)))) in
  after = db \/ after = Store.with_prizes (Store.other_draws [] others) db.
Proof.
  intros Hres after. subst after.
  destruct (IndexTs_draw_cases name u others fault db)
    as [(_ & _ & ->) | [(_ & _ & [-> | ->]) | [(_ & _ & ->) | Hok]]]; auto.
  destruct Hok as (pname & sel' & _ & _ & _ & _ & Hr & _).
  cbv zeta in Hr. congruence.
Qed.

Lemma Part000_failure u others fault db status error :
  fst (Part000.draw u others fault (Store.idle db))
  = Task.JsonError status error ->
  Task.conn (snd (Part000.draw u others fault (Store.idle db))) = Store.idle db.
Proof.
  intros Hres.
  destruct (Part000_draw_cases u others fault db)
    as [(_ & _ & ->) | [(_ & _ & ->) | Hok]]; auto.
  destruct Hok as (sel' & _ & _ & Hr & _). congruence.
Qed.

Lemma one_decrement_row (P : Type) (PR : PrizeRow P) (before after : list P) p :
  Store.unique_ids before -> Store.one_decrement before after p ->
  let persisted := row_set_remaining p (row_remaining p - 1) in
  In persisted after /\
  row_id persisted = row_id p /\
  row_remaining p = row_remaining persisted + 1 /\
  (forall q, In q after -> row_id q = row_id p -> q = persisted).
Proof.
  intros Huniq (front & back & -> & Hpos & ->) persisted.
  assert (In persisted (front ++ persisted :: back)) as Hin
    by (apply in_or_app; right; now left).
  assert (row_id persisted = row_id p) as Hid by apply row_id_set.
  split; [exact Hin |]. split; [exact Hid |]. split.
  - subst persisted. rewrite row_remaining_set. lia.
  - intros q Hq Hqid.
    apply (@StoreFacts.unique_row _ _ (front ++ persisted :: back)); auto.
    + unfold Store.unique_ids in *. rewrite map_app in *. simpl in *.
      now rewrite Hid.
    + congruence.
Qed.

(** With unique ids the UPDATE for a row without stock changes nothing. *)
Lemma decrement_sold_out (P : Type) (PR : PrizeRow P) (ps : list P) row :
  Store.unique_ids ps -> In row ps -> row_remaining row <= 0 ->
  Store.decrement (row_id row) ps = ps.
Proof.
  intros Huniq Hin Hle. unfold Store.decrement.
  rewrite <- (map_id ps) at 2. apply map_ext_in. intros q Hq.
  destruct (StoreFacts.decrement_row_cases (row_id row) q)
    as [[-> _] | (Hid & Hpos & _)]; [reflexivity |].
  assert (q = row) as -> by exact (@StoreFacts.unique_row _ _ ps q row Huniq Hq Hin Hid).
  lia.
Qed.

(** Other draws keep a row of every id in the table. *)
Lemma other_draws_row (P : Type) (PR : PrizeRow P) held others (ps : list P) p :
  In p ps ->
  exists row, In row (Store.other_draws held others ps) /\ row_id row = row_id p.
Proof.
  intros Hin.
  assert (In (row_id p) (map row_id (Store.other_draws held others ps))) as Hid.
  { rewrite StoreFacts.other_draws_ids. now apply in_map. }
  apply in_map_iff in Hid. destruct Hid as (row & Hrow & Hin').
  now exists row.
Qed.

Lemma Part000_weight_positive (table : list Part000.Prize) :
  Forall (fun p => Part000.remaining_quantity p <= Part000.total_quantity p) table ->
  Forall (fun p => 0 < Part000.weight p)%Q (Store.eligible table).
Proof.
  intros Hstock. apply Forall_forall. intros p Hp.
  apply StoreFacts.eligible_In in Hp. destruct Hp as [Hin Hpos].
  rewrite Forall_forall in Hstock. specialize (Hstock p Hin).
  unfold Part000.weight. simpl in Hpos.
  change 0%Q with (inject_Z 0). rewrite <- Zlt_Qlt. lia.
Qed.

(** The endpoint of [index.ts] reads the prizes with a plain SELECT, in
    every run. *)
Lemma index_ts_reads_prizes_unlocked name u others fault db for_update :
  In (Task.Execute (SelectEligiblePrizes for_update))
     (Task.trace (snd (IndexTs.draw name u others fault (Store.idle db)))) ->
  for_update = false /\
  sql_text (SelectEligiblePrizes for_update)
  = "SELECT * FROM prizes WHERE remaining_quantity > 0"%string.
Proof.
  intros Hin.
  pose proof (@IndexTs_draw_trace _ _ _ _ _ _ Hin) as Hplain. simpl in Hplain.
  now subst for_update.
Qed.

(** The endpoint of [part_000] reads the prizes [FOR UPDATE], and between
    that read and its UPDATE no other draw changes the table. *)
Lemma part000_reads_prizes_under_lock u others fault db :
  (forall for_update,
     In (Task.Execute (SelectEligiblePrizes for_update))
        (Task.trace (snd (Part000.draw u others fault (Store.idle db)))) ->
     for_update = true /\
     sql_text (SelectEligiblePrizes for_update)
     = "SELECT * FROM prizes WHERE remaining_quantity > 0 FOR UPDATE"%string) /\
  Store.other_draws (map row_id (Store.eligible (Store.prizes db))) others
    (Store.prizes db)
  = Store.prizes db.
Proof.
  split.
  - intros for_update Hin.
    pose proof (@Part000_draw_trace _ _ _ _ _ Hin) as Hlock. simpl in Hlock.
    now subst for_update.
  - apply StoreFacts.other_draws_locked.
Qed.

(** Without a persistence failure a draw over a non-empty eligible list
    answers 200 with what [weightedRandom] returned. *)
Lemma IndexTs_draw_succeeds participantName u others db :
  participantName <> ""%string -> Store.eligible (Store.prizes db) <> [] ->
  exists participant sel,
    IndexTs.weightedRandom u (Store.eligible (Store.prizes db)) = Some sel /\
    fst (IndexTs.draw (Some participantName) u others None (Store.idle db))
    = Task.Json200 participant sel.
Proof.
  intros Hname Hrows.
  destruct (IndexTs_draw_cases (Some participantName) u others None db)
    as [(_ & [Hn | Hn] & _) | [(_ & Hf & _) | [(_ & Hnil & _) | Hok]]];
    try congruence.
  destruct Hok as (name' & sel & _ & _ & _ & Hsel & Hres & _).
  eauto.
Qed.

Lemma Part000_draw_succeeds u others db :
  Store.eligible (Store.prizes db) <> [] ->
  exists sel,
    Part000.weightedRandom u (Store.eligible (Store.prizes db)) = Some sel /\
    fst (Part000.draw u others None (Store.idle db)) = Task.Json200 None sel.
Proof.
  intros Hrows.
  destruct (Part000_draw_cases u others None db)
    as [(_ & Hf & _) | [(_ & Hnil & _) | Hok]]; try congruence.
  destruct Hok as (sel & _ & Hsel & Hres & _). eauto.
Qed.



(** C7.  The spec's example: for the prizes with weights 10 and 90, in that
    order, and [r = 5] (that is [Math.random() = 1/20]), the walk computes
    [5 - 10 = -5 <= 0] at the first prize and selects it (id 1), in both
    files. *)
Theorem example_r5_selects_prize_1 :
  (IndexTs.random_start (1 # 20) == 5)%Q /\
  (Walk.running IndexTs.weight 5 [Examples.index_first] == 5 - 10)%Q /\
  (5 - 10 == -5)%Q /\ (-5 <= 0)%Q /\
  IndexTs.walk 5 Examples.index_two = Some Examples.index_first /\
  IndexTs.weightedRandom (1 # 20) Examples.index_two = Some Examples.index_first /\
  IndexTs.id Examples.index_first = 1 /\
  (Part000.totalWeight Examples.part_two == 100)%Q /\
  (Part000.random_start (1 # 20) Examples.part_two == 5)%Q /\
  (Walk.running Part000.weight 5 [Examples.part_first] == 5 - 10)%Q /\
  Part000.walk 5 Examples.part_two = Some Examples.part_first /\
  Part000.weightedRandom (1 # 20) Examples.part_two = Some Examples.part_first /\
  Part000.id Examples.part_first = 1.
Proof.
  repeat split; try reflexivity; try (intros H; discriminate H).
Qed.

(** C1, counterexample.  In [index.ts] the eligible prizes have weights 10
    and 20 ([W = 30]) once the prize of weight 70 is out of stock, and
    [Math.random() = 1/2] gives [r = 50], outside [[0, 30)]. *)
Lemma index_random_start_outside_eligible_weight :
  Store.eligible Examples.index_three
  = [Examples.index_small; Examples.index_medium] /\
  (0 <= 1 # 2 < 1)%Q /\
  (Walk.weight_sum IndexTs.weight (Store.eligible Examples.index_three) == 30)%Q /\
  (IndexTs.random_start (1 # 2) == 50)%Q /\
  ~ (0 <= IndexTs.random_start (1 # 2)
     < Walk.weight_sum IndexTs.weight (Store.eligible Examples.index_three))%Q.
Proof.
  repeat split; try reflexivity; try (intros H; discriminate H).
  intros [_ H]. vm_compute in H. discriminate H.
Qed.

(** C1, as amended.  In [part_000] the start value is [u * W] for the sum
    [W] of the weights of the very list that is walked, and lies in [[0, W)]
    when stock never exceeds [total_quantity] (so that the weights of eligible
    prizes are positive); in [index.ts] it is [u * 100] and lies in
    [[0, 100)], whatever the eligible weights add up to. *)
Theorem random_start_range :
  (forall u table,
     (0 <= u < 1)%Q ->
     Forall (fun p => Part000.remaining_quantity p <= Part000.total_quantity p)
       table ->
     Store.eligible table <> [] ->
     let prizes := Store.eligible table in
     let W := Walk.weight_sum Part000.weight prizes in
     Part000.totalWeight prizes = W /\
     (0 <= Part000.random_start u prizes < W)%Q /\
     Part000.weightedRandom u prizes
     = Walk.select Part000.weight (Part000.random_start u prizes) prizes)
  /\
  (forall u, (0 <= u < 1)%Q -> (0 <= IndexTs.random_start u < 100)%Q).
Proof.
  split.
  - intros u table [Hu0 Hu1] Hstock Hne prizes W. subst prizes W.
    split; [reflexivity |]. split; [| apply Part000_select].
    unfold Part000.random_start. rewrite Part000_totalWeight.
    pose proof (@WalkFacts.weight_sum_positive _ Part000.weight _ Hne
                  (Part000_weight_positive Hstock)) as HW.
    split.
    + apply Qmult_le_0_compat; [exact Hu0 | now apply Qlt_le_weak].
    + rewrite <- (Qmult_1_l (Walk.weight_sum _ _)) at 2.
      now apply Qmult_lt_compat_r.
  - intros u [Hu0 Hu1]. unfold IndexTs.random_start. split; lra.
Qed.

Lemma random_start_range_witness :
  (Part000.totalWeight (Store.eligible Examples.part_two)
   = Walk.weight_sum Part000.weight (Store.eligible Examples.part_two) /\
   (0 <= Part000.random_start (1 # 20) (Store.eligible Examples.part_two)
    < Walk.weight_sum Part000.weight (Store.eligible Examples.part_two))%Q /\
   Part000.weightedRandom (1 # 20) (Store.eligible Examples.part_two)
   = Walk.select Part000.weight
       (Part000.random_start (1 # 20) (Store.eligible Examples.part_two))
       (Store.eligible Examples.part_two))
  /\ (0 <= IndexTs.random_start (1 # 20) < 100)%Q.
Proof.
  split.
  - apply (proj1 random_start_range (1 # 20) Examples.part_two).
    + split; [discriminate | reflexivity].
    + repeat constructor; simpl; lia.
    + discriminate.
  - apply (proj2 random_start_range (1 # 20)).
    split; [discriminate | reflexivity].
Defined.

(** C10.  Whenever a run of either endpoint calls [weightedRandom], its
    argument is non-empty; on a non-empty array the fallback read
    [prizes[prizes.length - 1]] is in bounds and the function returns a row;
    only on the empty array, which no run passes, is the result
    [undefined]. *)
Theorem weightedRandom_never_on_empty_list :
  (forall name u others fault db prizes,
     In (Task.CallWeightedRandom prizes)
        (Task.trace (snd (IndexTs.draw name u others fault (Store.idle db)))) ->
     prizes <> [] /\
     exists last, js_index prizes (js_length prizes - 1) = Some last /\
                  IndexTs.weightedRandom u prizes <> None)
  /\
  (forall u others fault db prizes,
     In (Task.CallWeightedRandom prizes)
        (Task.trace (snd (Part000.draw u others fault (Store.idle db)))) ->
     prizes <> [] /\
     exists last, js_index prizes (js_length prizes - 1) = Some last /\
                  Part000.weightedRandom u prizes <> None)
  /\
  (forall u, IndexTs.weightedRandom u [] = None /\
             Part000.weightedRandom u [] = None).
Proof.
  split; [| split].
  - intros name u others fault db prizes Hin.
    pose proof (@IndexTs_draw_trace _ _ _ _ _ _ Hin) as [_ Hne].
    split; [exact Hne |].
    destruct (nonempty_snoc Hne) as (front & x & ->).
    exists x. split; [apply js_index_last |].
    destruct (@IndexTs_weightedRandom_some u (front ++ [x]) Hne) as (p & -> & _).
    discriminate.
  - intros u others fault db prizes Hin.
    pose proof (@Part000_draw_trace _ _ _ _ _ Hin) as [_ Hne].
    split; [exact Hne |].
    destruct (nonempty_snoc Hne) as (front & x & ->).
    exists x. split; [apply js_index_last |].
    destruct (@Part000_weightedRandom_some u (front ++ [x]) Hne) as (p & -> & _).
    discriminate.
  - intros u. split; reflexivity.
Qed.

Lemma weightedRandom_never_on_empty_list_witness :
  (Examples.index_two <> [] /\
   exists last,
     js_index Examples.index_two (js_length Examples.index_two - 1) = Some last /\
     IndexTs.weightedRandom (1 # 20) Examples.index_two <> None)
  /\
  (Examples.part_two <> [] /\
   exists last,
     js_index Examples.part_two (js_length Examples.part_two - 1) = Some last /\
     Part000.weightedRandom (1 # 20) Examples.part_two <> None).
Proof.
  split.
  - apply (proj1 weightedRandom_never_on_empty_list (Some "bob"%string) (1 # 20)
             [] None Examples.index_db Examples.index_two).
    simpl. tauto.
  - apply (proj1 (proj2 weightedRandom_never_on_empty_list) (1 # 20)
             [] None Examples.part_db Examples.part_two).
    simpl. tauto.
Defined.

(** C3.  When no prize has [remaining_quantity > 0], every run of either
    endpoint fails and leaves the committed database as it was: no record, no
    decrement, no participant.  When the read of the prizes is reached (no
    store call fails and, in [index.ts], a participant name was sent) the
    answer is 400 with the no-prizes message, after a rollback. *)
Theorem no_prizes_available :
  (forall name u others fault db,
     Store.eligible (Store.prizes db) = [] ->
     let result := IndexTs.draw name u others fault (Store.idle db) in
     Store.committed (Task.conn (snd result)) = db /\
     (exists status error, fst result = Task.JsonError status error) /\
     (forall participantName,
        name = Some participantName -> participantName <> ""%string ->
        fault = None ->
        fst result = Task.JsonError 400 "No prizes available" /\
        Task.conn (snd result) = Store.idle db))
  /\
  (forall u others fault db,
     Store.eligible (Store.prizes db) = [] ->
     let result := Part000.draw u others fault (Store.idle db) in
     Store.committed (Task.conn (snd result)) = db /\
     (exists status error, fst result = Task.JsonError status error) /\
     (fault = None ->
      fst result = Task.JsonError 400 "沒有可用的獎項" /\
      Task.conn (snd result) = Store.idle db)).
Proof.
  split.
  - intros name u others fault db Hnil result. subst result.
    assert (Store.with_prizes (Store.other_draws [] others) db = db) as Hsame.
    { apply StoreFacts.with_prizes_same.
      now apply StoreFacts.other_draws_sold_out. }
    destruct (IndexTs_draw_cases name u others fault db)
      as [(Hr & Hname & Hc) | [(Hr & Hf & Hc) | [(Hr & _ & Hc) | Hok]]].
    + rewrite Hr, Hc. split; [reflexivity |]. split; [eauto |].
      intros pname -> Hne _. destruct Hname as [Hn | Hn]; congruence.
    + rewrite Hr. split.
      * destruct Hc as [-> | ->]; [reflexivity | now rewrite Hsame].
      * split; [eauto |]. intros _ _ _ Hnone. congruence.
    + rewrite Hr, Hc. split; [reflexivity |]. split; [eauto |]. auto.
    + destruct Hok as (_ & _ & _ & _ & Hne & _). congruence.
  - intros u others fault db Hnil result. subst result.
    destruct (Part000_draw_cases u others fault db)
      as [(Hr & Hf & Hc) | [(Hr & _ & Hc) | Hok]].
    + rewrite Hr, Hc. split; [reflexivity |]. split; [eauto |]. congruence.
    + rewrite Hr, Hc. split; [reflexivity |]. split; [eauto |]. auto.
    + destruct Hok as (_ & Hne & _). congruence.
Qed.

Lemma no_prizes_available_witness :
  (Store.committed
     (Task.conn (snd (IndexTs.draw (Some "bob"%string) (1 # 20) [] None
                        (Store.idle Examples.index_empty_db))))
   = Examples.index_empty_db /\
   fst (IndexTs.draw (Some "bob"%string) (1 # 20) [] None
          (Store.idle Examples.index_empty_db))
   = Task.JsonError 400 "No prizes available")
  /\
  (Store.committed
     (Task.conn (snd (Part000.draw (1 # 20) [] None
                        (Store.idle Examples.part_empty_db))))
   = Examples.part_empty_db /\
   fst (Part000.draw (1 # 20) [] None (Store.idle Examples.part_empty_db))
   = Task.JsonError 400 "沒有可用的獎項").
Proof.
  split.
  - destruct (proj1 no_prizes_available (Some "bob"%string) (1 # 20) [] None
                Examples.index_empty_db eq_refl) as (Hdb & _ & Hres).
    split; [exact Hdb |].
    apply (Hres "bob"%string eq_refl); [discriminate | reflexivity].
  - destruct (proj2 no_prizes_available (1 # 20) [] None
                Examples.part_empty_db eq_refl) as (Hdb & _ & Hres).
    split; [exact Hdb |]. now apply Hres.
Defined.

(** C4.  The guarded UPDATE leaves a row alone or takes exactly one unit off
    a row of the given id whose stock is positive at write time; every run of
    either endpoint, successful or not, with or without other draws in
    between, keeps every [remaining_quantity] non-negative; and a successful
    draw persists the write-time table with that UPDATE applied for the
    selected id.  With [id] a key of the table that is: the table persisted
    by a successful draw is the table at write time with exactly one unit
    taken off the row of the selected id and nothing else changed, when that
    row still has stock at write time, and the table at write time unchanged
    when it has none.  In [part_000], and in [index.ts] when no other draw
    took from the selected prize in between, the row at write time is the
    selected row itself and the unit is always taken. *)
Theorem remaining_quantity_never_negative :
  (forall (P : Type) (PR : PrizeRow P) (id : Z) (p : P),
     (Store.decrement_row id p = p /\ (row_id p <> id \/ row_remaining p <= 0))
     \/
     (row_id p = id /\ 0 < row_remaining p /\
      row_remaining (Store.decrement_row id p) = row_remaining p - 1))
  /\
  (forall name u others fault db,
     Store.nonneg (Store.prizes db) ->
     let final := Task.conn (snd (IndexTs.draw name u others fault (Store.idle db))) in
     Store.nonneg (Store.prizes (Store.committed final)) /\
     Store.nonneg (Store.prizes (Store.view final)))
  /\
  (forall u others fault db,
     Store.nonneg (Store.prizes db) ->
     let final := Task.conn (snd (Part000.draw u others fault (Store.idle db))) in
     Store.nonneg (Store.prizes (Store.committed final)) /\
     Store.nonneg (Store.prizes (Store.view final)))
  /\
  (forall name u others fault db participant sel,
     fst (IndexTs.draw name u others fault (Store.idle db))
     = Task.Json200 participant sel ->
     Store.prizes
       (Store.committed
          (Task.conn (snd (IndexTs.draw name u others fault (Store.idle db)))))
     = Store.decrement (IndexTs.id sel)
         (Store.other_draws [] others (Store.prizes db)))
  /\
  (forall u others fault db participant sel,
     fst (Part000.draw u others fault (Store.idle db))
     = Task.Json200 participant sel ->
     Store.prizes
       (Store.committed
          (Task.conn (snd (Part000.draw u others fault (Store.idle db)))))
     = Store.decrement (Part000.id sel) (Store.prizes db))
  /\
  (forall name u others fault db participant sel,
     let result := IndexTs.draw name u others fault (Store.idle db) in
     let at_write := Store.other_draws [] others (Store.prizes db) in
     let after := Store.prizes (Store.committed (Task.conn (snd result))) in
     fst result = Task.Json200 participant sel ->
     Store.unique_ids (Store.prizes db) ->
     (exists row,
         In row at_write /\ IndexTs.id row = IndexTs.id sel /\
         ((0 < IndexTs.remaining_quantity row /\
           Store.one_decrement at_write after row) \/
          (IndexTs.remaining_quantity row <= 0 /\ after = at_write))) /\
     (~ In (IndexTs.id sel) others ->
      Store.one_decrement at_write after sel))
  /\
  (forall u others fault db participant sel,
     let result := Part000.draw u others fault (Store.idle db) in
     let after := Store.prizes (Store.committed (Task.conn (snd result))) in
     fst result = Task.Json200 participant sel ->
     Store.unique_ids (Store.prizes db) ->
     Store.one_decrement (Store.prizes db) after sel).
Proof.
  split; [| split; [| split; [| split; [| split; [| split]]]]].
  - intros P PR id p.
    destruct (StoreFacts.decrement_row_cases id p)
      as [Hsame | (Hid & Hpos & Heq)]; [now left | right].
    split; [exact Hid |]. split; [exact Hpos |].
    rewrite Heq. apply row_remaining_set.
  - intros name u others fault db Hdb final. subst final.
    assert (Store.nonneg (Store.other_draws [] others (Store.prizes db))) as Hothers
      by now apply StoreFacts.other_draws_nonneg.
    destruct (IndexTs_draw_cases name u others fault db)
      as [(_ & _ & ->) | [(_ & _ & [-> | ->]) | [(_ & _ & ->) | Hok]]];
      try (split; assumption).
    destruct Hok as (pname & sel & _ & _ & _ & _ & _ & ->).
    cbn [Store.idle Store.committed Store.view Store.work Store.with_prizes
         Store.add_record Store.prizes].
    rewrite find_or_create_prizes.
    split; now apply StoreFacts.decrement_nonneg.
  - intros u others fault db Hdb final. subst final.
    destruct (Part000_draw_cases u others fault db)
      as [(_ & _ & ->) | [(_ & _ & ->) | Hok]]; try (split; assumption).
    destruct Hok as (sel & _ & _ & _ & ->).
    split; now apply StoreFacts.decrement_nonneg.
  - intros name u others fault db participant sel Hres.
    destruct (IndexTs_success _ _ _ _ _ Hres) as (who & _ & _ & _ & Hprizes & _).
    exact Hprizes.
  - intros u others fault db participant sel Hres.
    destruct (Part000_success _ _ _ _ Hres) as (_ & ->). reflexivity.
  - intros name u others fault db participant sel result at_write after Hres Huniq.
    subst result after.
    destruct (IndexTs_success _ _ _ _ _ Hres) as (who & _ & Hin & _ & Hprizes & _).
    rewrite Hprizes. fold at_write.
    apply StoreFacts.eligible_In in Hin. destruct Hin as [Hin Hpos].
    assert (Store.unique_ids at_write) as Huniq'.
    { unfold Store.unique_ids, at_write.
      now rewrite StoreFacts.other_draws_ids. }
    split.
    + destruct (@other_draws_row _ _ [] others _ _ Hin) as (row & Hrow & Hid).
      exists row. split; [exact Hrow |]. split; [exact Hid |].
      change (IndexTs.id sel) with (row_id sel). rewrite <- Hid.
      destruct (Z.ltb_spec 0 (IndexTs.remaining_quantity row)) as [Hstock | Hnone].
      * left. split; [exact Hstock |].
        exact (@StoreFacts.decrement_one _ _ _ _ Huniq' Hrow Hstock).
      * right. split; [exact Hnone |].
        exact (@decrement_sold_out _ _ _ _ Huniq' Hrow Hnone).
    + intros Hnot.
      assert (In sel at_write) as Hin'
        by now apply StoreFacts.other_draws_keeps.
      exact (@StoreFacts.decrement_one _ _ _ _ Huniq' Hin' Hpos).
  - intros u others fault db participant sel result after Hres Huniq.
    subst result after.
    destruct (Part000_success _ _ _ _ Hres) as (Hin & ->).
    apply StoreFacts.eligible_In in Hin. destruct Hin as [Hin Hpos].
    exact (@StoreFacts.decrement_one _ _ _ _ Huniq Hin Hpos).
Qed.

Lemma remaining_quantity_never_negative_witness :
  Store.nonneg
    (Store.prizes
       (Store.committed
          (Task.conn (snd (IndexTs.draw (Some "bob"%string) (1 # 20) [1] None
                             (Store.idle Examples.index_last_db)))))) /\
  Store.nonneg
    (Store.prizes
       (Store.committed
          (Task.conn (snd (Part000.draw (1 # 20) [1] None
                             (Store.idle Examples.part_db)))))) /\
  Store.one_decrement
    (Store.other_draws [] [2] (Store.prizes Examples.index_db))
    (Store.prizes
       (Store.committed
          (Task.conn (snd (IndexTs.draw (Some "bob"%string) (1 # 20) [2] None
                             (Store.idle Examples.index_db))))))
    Examples.index_first /\
  Store.one_decrement (Store.prizes Examples.part_db)
    (Store.prizes
       (Store.committed
          (Task.conn (snd (Part000.draw (1 # 20) [1] None
                             (Store.idle Examples.part_db))))))
    Examples.part_first.
Proof.
  destruct remaining_quantity_never_negative
    as (_ & Hindex & Hpart & _ & _ & Hindex_unit & Hpart_unit).
  split; [| split; [| split]].
  - apply Hindex. repeat constructor; simpl; lia.
  - apply Hpart. repeat constructor; simpl; lia.
  - apply (Hindex_unit (Some "bob"%string) (1 # 20) [2] None Examples.index_db
             (Some (mkParticipant 1 "bob")) Examples.index_first eq_refl).
    + repeat constructor; simpl; intuition discriminate.
    + simpl. intuition discriminate.
  - apply (Hpart_unit (1 # 20) [1] None Examples.part_db
             None Examples.part_first eq_refl).
    repeat constructor; simpl; intuition discriminate.
Defined.

(** C2, counterexample.  A successful draw of [part_000] leaves
    [lottery_records] empty: that file never writes a record. *)
Lemma part000_success_writes_no_record :
  fst (Part000.draw (1 # 20) [] None (Store.idle Examples.part_db))
  = Task.Json200 None Examples.part_first /\
  List.length
    (Store.lottery_records
       (Store.committed
          (Task.conn (snd (Part000.draw (1 # 20) [] None
                             (Store.idle Examples.part_db))))))
  <> S (List.length (Store.lottery_records Examples.part_db)) /\
  Store.lottery_records Examples.part_db = [] /\
  Store.lottery_records
    (Store.committed
       (Task.conn (snd (Part000.draw (1 # 20) [] None
                          (Store.idle Examples.part_db))))) = [].
Proof.
  split; [reflexivity |]. split; [simpl; discriminate |].
  split; reflexivity.
Qed.

(** C2, as amended.  A successful draw of [index.ts] appends exactly one
    record, for the selected prize and the participant of the response, and,
    when no other draw intervenes and [id] is a key, takes one unit off
    exactly the selected row.  A successful draw of [part_000] writes no
    record and takes one unit off exactly the selected row.  A failed draw of
    either file writes no record (and by itself no decrement). *)
Theorem draw_records :
  (forall name u others fault db,
     let result := IndexTs.draw name u others fault (Store.idle db) in
     let after := Store.committed (Task.conn (snd result)) in
     match fst result with
     | Task.Json200 participant sel =>
         (exists record,
             Store.lottery_records after = Store.lottery_records db ++ [record] /\
             record_prize_id record = IndexTs.id sel /\
             Some (record_participant_id record)
             = option_map participant_id participant) /\
         (others = [] -> Store.unique_ids (Store.prizes db) ->
          Store.one_decrement (Store.prizes db) (Store.prizes after) sel)
     | Task.JsonError _ _ =>
         Store.lottery_records after = Store.lottery_records db /\
         Store.participants after = Store.participants db /\
         (others = [] -> Store.prizes after = Store.prizes db)
     end)
  /\
  (forall u others fault db,
     let result := Part000.draw u others fault (Store.idle db) in
     let after := Store.committed (Task.conn (snd result)) in
     match fst result with
     | Task.Json200 _ sel =>
         Store.lottery_records after = Store.lottery_records db /\
         (Store.unique_ids (Store.prizes db) ->
          Store.one_decrement (Store.prizes db) (Store.prizes after) sel)
     | Task.JsonError _ _ => after = db
     end).
Proof.
  split.
  - intros name u others fault db result after. subst result after.
    destruct (fst (IndexTs.draw name u others fault (Store.idle db)))
      as [participant sel | status error] eqn:Hres.
    + destruct (IndexTs_success _ _ _ _ _ Hres)
        as (who & -> & Hin & _ & Hprizes & Hrecords).
      split.
      * eexists. split; [exact Hrecords |]. split; reflexivity.
      * intros -> Huniq. rewrite Hprizes, StoreFacts.other_draws_nil.
        apply StoreFacts.eligible_In in Hin. destruct Hin as [Hin Hpos].
        exact (@StoreFacts.decrement_one _ _ _ _ Huniq Hin Hpos).
    + destruct (IndexTs_failure _ _ _ _ _ Hres) as [-> | ->].
      * repeat split.
      * repeat split. now intros ->.
  - intros u others fault db result after. subst result after.
    destruct (fst (Part000.draw u others fault (Store.idle db)))
      as [participant sel | status error] eqn:Hres.
    + destruct (Part000_success _ _ _ _ Hres) as (Hin & ->).
      split; [reflexivity |]. intros Huniq.
      apply StoreFacts.eligible_In in Hin. destruct Hin as [Hin Hpos].
      exact (@StoreFacts.decrement_one _ _ _ _ Huniq Hin Hpos).
    + now rewrite (Part000_failure _ _ _ _ Hres).
Qed.

Lemma draw_records_witness :
  Store.one_decrement (Store.prizes Examples.index_db)
    (Store.prizes
       (Store.committed
          (Task.conn (snd (IndexTs.draw (Some "bob"%string) (1 # 20) [] None
                             (Store.idle Examples.index_db))))))
    Examples.index_first /\
  Store.one_decrement (Store.prizes Examples.part_db)
    (Store.prizes
       (Store.committed
          (Task.conn (snd (Part000.draw (1 # 20) [] None
                             (Store.idle Examples.part_db))))))
    Examples.part_first.
Proof.
  split.
  - apply (proj1 draw_records (Some "bob"%string) (1 # 20) [] None
             Examples.index_db); [reflexivity |].
    repeat constructor; simpl; intuition discriminate.
  - apply (proj2 draw_records (1 # 20) [] None Examples.part_db).
    repeat constructor; simpl; intuition discriminate.
Defined.

(** C9, counterexample.  [index.ts], prize 1 read with five units left,
    another draw takes one of them between this draw's read and its UPDATE:
    the draw succeeds and reports prize 1 with [remaining_quantity] 5, the
    value read, while the table it persists holds prize 1 with 3, so the
    reported value is two greater than the persisted one, not one. *)
Lemma index_reported_stock_is_two_above_persisted :
  let result :=
    IndexTs.draw (Some "bob"%string) (1 # 20) [1] None
      (Store.idle Examples.index_db) in
  let after := Store.prizes (Store.committed (Task.conn (snd result))) in
  fst result
  = Task.Json200 (Some (mkParticipant 1 "bob")) Examples.index_first /\
  In Examples.index_first (Store.eligible (Store.prizes Examples.index_db)) /\
  IndexTs.remaining_quantity Examples.index_first = 5 /\
  (forall persisted,
      In persisted after ->
      IndexTs.id persisted = IndexTs.id Examples.index_first ->
      IndexTs.remaining_quantity persisted = 3) /\
  ~ (exists persisted,
        In persisted after /\
        IndexTs.id persisted = IndexTs.id Examples.index_first /\
        IndexTs.remaining_quantity Examples.index_first
        = IndexTs.remaining_quantity persisted + 1).
Proof.
  cbv zeta.
  assert (forall persisted,
             In persisted
               (Store.prizes
                  (Store.committed
                     (Task.conn
                        (snd (IndexTs.draw (Some "bob"%string) (1 # 20) [1] None
                                (Store.idle Examples.index_db)))))) ->
             IndexTs.id persisted = IndexTs.id Examples.index_first ->
             IndexTs.remaining_quantity persisted = 3) as Hthree.
  { intros persisted [<- | [<- | []]]; [reflexivity | discriminate]. }
  split; [reflexivity |]. split; [now left |]. split; [reflexivity |].
  split; [exact Hthree |].
  intros (persisted & Hin & Hid & Hone).
  rewrite (Hthree persisted Hin Hid) in Hone. discriminate.
Qed.

(** C9, as amended.  The prize of a 200 response is a row of the eligible
    list as read, so it carries the [remaining_quantity] read at selection
    time.  With [id] a key of the table, and no other draw on that prize
    between the read and the UPDATE (which the lock of [part_000] ensures),
    the table persisted by the draw holds exactly one row of that id, and the
    reported [remaining_quantity] is one more than the persisted one. *)
Theorem response_prize_is_the_row_as_read :
  (forall name u others fault db participant sel,
     let result := IndexTs.draw name u others fault (Store.idle db) in
     let after := Store.prizes (Store.committed (Task.conn (snd result))) in
     fst result = Task.Json200 participant sel ->
     In sel (Store.eligible (Store.prizes db)) /\
     (Store.unique_ids (Store.prizes db) -> ~ In (IndexTs.id sel) others ->
      exists persisted,
        In persisted after /\
        IndexTs.id persisted = IndexTs.id sel /\
        IndexTs.remaining_quantity sel = IndexTs.remaining_quantity persisted + 1 /\
        (forall q, In q after -> IndexTs.id q = IndexTs.id sel -> q = persisted)))
  /\
  (forall u others fault db participant sel,
     let result := Part000.draw u others fault (Store.idle db) in
     let after := Store.prizes (Store.committed (Task.conn (snd result))) in
     fst result = Task.Json200 participant sel ->
     In sel (Store.eligible (Store.prizes db)) /\
     (Store.unique_ids (Store.prizes db) ->
      exists persisted,
        In persisted after /\
        Part000.id persisted = Part000.id sel /\
        Part000.remaining_quantity sel = Part000.remaining_quantity persisted + 1 /\
        (forall q, In q after -> Part000.id q = Part000.id sel -> q = persisted))).
Proof.
  split.
  - intros name u others fault db participant sel result after Hres.
    subst result after.
    destruct (IndexTs_success _ _ _ _ _ Hres)
      as (who & _ & Hin & _ & Hprizes & _).
    split; [exact Hin |]. intros Huniq Hnot. rewrite Hprizes.
    apply StoreFacts.eligible_In in Hin. destruct Hin as [Hin Hpos].
    set (at_write := Store.other_draws [] others (Store.prizes db)).
    assert (Store.unique_ids at_write) as Huniq'.
    { unfold Store.unique_ids, at_write.
      now rewrite StoreFacts.other_draws_ids. }
    assert (In sel at_write) as Hin'
      by now apply StoreFacts.other_draws_keeps.
    pose proof (@StoreFacts.decrement_one _ _ _ _ Huniq' Hin' Hpos) as Hone.
    eexists. exact (one_decrement_row Huniq' Hone).
  - intros u others fault db participant sel result after Hres.
    subst result after.
    destruct (Part000_success _ _ _ _ Hres) as (Hin & ->).
    split; [exact Hin |]. intros Huniq.
    apply StoreFacts.eligible_In in Hin. destruct Hin as [Hin Hpos].
    pose proof (@StoreFacts.decrement_one _ _ _ _ Huniq Hin Hpos) as Hone.
    eexists. exact (one_decrement_row Huniq Hone).
Qed.

Lemma response_prize_is_the_row_as_read_witness :
  (In Examples.index_first (Store.eligible (Store.prizes Examples.index_db)) /\
   exists persisted,
     In persisted
        (Store.prizes
           (Store.committed
              (Task.conn (snd (IndexTs.draw (Some "bob"%string) (1 # 20) [2] None
                                 (Store.idle Examples.index_db)))))) /\
     IndexTs.id persisted = 1 /\
     5 = IndexTs.remaining_quantity persisted + 1)
  /\
  (In Examples.part_first (Store.eligible (Store.prizes Examples.part_db)) /\
   exists persisted,
     In persisted
        (Store.prizes
           (Store.committed
              (Task.conn (snd (Part000.draw (1 # 20) [1] None
                                 (Store.idle Examples.part_db)))))) /\
     Part000.id persisted = 1 /\
     5 = Part000.remaining_quantity persisted + 1).
Proof.
  split.
  - destruct (proj1 response_prize_is_the_row_as_read
                (Some "bob"%string) (1 # 20) [2] None Examples.index_db
                (Some (mkParticipant 1 "bob")) Examples.index_first eq_refl)
      as (Hin & Hrow).
    split; [exact Hin |].
    destruct Hrow as (persisted & H1 & H2 & H3 & _).
    + repeat constructor; simpl; intuition discriminate.
    + simpl. intuition discriminate.
    + exists persisted. auto.
  - destruct (proj2 response_prize_is_the_row_as_read
                (1 # 20) [1] None Examples.part_db
                None Examples.part_first eq_refl)
      as (Hin & Hrow).
    split; [exact Hin |].
    destruct Hrow as (persisted & H1 & H2 & H3 & _).
    + repeat constructor; simpl; intuition discriminate.
    + exists persisted. auto.
Defined.

(** C5, counterexample.  [index.ts], one prize with one unit left, another
    draw takes the unit between this draw's read and its UPDATE: the UPDATE
    affects no row, yet the draw commits (no rollback), keeps its record and
    answers 200 with the exhausted prize. *)
Lemma index_noop_decrement_is_committed :
  let result :=
    IndexTs.draw (Some "bob"%string) (1 # 20) [1] None
      (Store.idle Examples.index_last_db) in
  let at_write :=
    Store.other_draws [] [1] (Store.prizes Examples.index_last_db) in
  Store.affected 1 at_write = 0 /\
  fst result
  = Task.Json200 (Some (mkParticipant 1 "bob")) Examples.index_last_unit /\
  In Task.Commit (Task.trace (snd result)) /\
  ~ In Task.Rollback (Task.trace (snd result)) /\
  Store.work (Task.conn (snd result)) = None /\
  Store.lottery_records (Store.committed (Task.conn (snd result)))
  = [mkLotteryRecord 1 1 1] /\
  Store.prizes (Store.committed (Task.conn (snd result))) = at_write.
Proof.
  repeat split.
  - simpl. tauto.
  - simpl. intros H. repeat (destruct H as [H | H]; [discriminate H |]). exact H.
Qed.

(** C5, as amended.  Neither endpoint looks at the result of the UPDATE:
    whenever the eligible list is non-empty and no store call fails, the draw
    commits and answers 200.  In [index.ts] a no-op UPDATE leaves the
    write-time table as it is while the record is committed; in [part_000]
    the rows read are held, the write-time table is the table read, and the
    UPDATE always affects a row. *)
Theorem decrement_result_is_not_inspected :
  (forall participantName u others db,
     participantName <> ""%string ->
     Store.eligible (Store.prizes db) <> [] ->
     let result :=
       IndexTs.draw (Some participantName) u others None (Store.idle db) in
     let final := Task.conn (snd result) in
     let at_write := Store.other_draws [] others (Store.prizes db) in
     exists who sel,
       fst result = Task.Json200 (Some who) sel /\
       Store.work final = None /\
       Store.prizes (Store.committed final)
       = Store.decrement (IndexTs.id sel) at_write /\
       Store.lottery_records (Store.committed final)
       = Store.lottery_records db
           ++ [mkLotteryRecord
                 (next_id (map record_id (Store.lottery_records db)))
                 (participant_id who) (IndexTs.id sel)] /\
       (Store.affected (IndexTs.id sel) at_write = 0 ->
        Store.prizes (Store.committed final) = at_write))
  /\
  (forall u others db,
     Store.eligible (Store.prizes db) <> [] ->
     let result := Part000.draw u others None (Store.idle db) in
     let held := map row_id (Store.eligible (Store.prizes db)) in
     let at_write := Store.other_draws held others (Store.prizes db) in
     exists sel,
       fst result = Task.Json200 None sel /\
       Task.conn (snd result)
       = Store.idle (Store.with_prizes (Store.decrement (Part000.id sel)) db) /\
       at_write = Store.prizes db /\
       0 < Store.affected (Part000.id sel) at_write).
Proof.
  split.
  - intros participantName u others db Hname Hrows result final at_write.
    subst result final at_write.
    destruct (@IndexTs_draw_succeeds participantName u others db Hname Hrows)
      as (participant & sel & _ & Hres).
    destruct (IndexTs_success _ _ _ _ _ Hres)
      as (who & -> & _ & Hwork & Hprizes & Hrecords).
    exists who, sel. repeat split; try assumption.
    intros Hzero. rewrite Hprizes.
    now apply StoreFacts.affected_zero_noop.
  - intros u others db Hrows result held at_write.
    subst result held at_write.
    destruct (@Part000_draw_succeeds u others db Hrows) as (sel & _ & Hres).
    destruct (Part000_success _ _ _ _ Hres) as (Hin & Hfinal).
    exists sel. rewrite StoreFacts.other_draws_locked.
    repeat split; try assumption.
    apply StoreFacts.eligible_In in Hin. destruct Hin as [Hin Hpos].
    now apply (@StoreFacts.affected_pos _ _ _ _ sel).
Qed.

Lemma decrement_result_is_not_inspected_witness :
  (exists who sel,
      fst (IndexTs.draw (Some "bob"%string) (1 # 20) [1] None
             (Store.idle Examples.index_last_db))
      = Task.Json200 (Some who) sel)
  /\
  (exists sel,
      fst (Part000.draw (1 # 20) [1] None (Store.idle Examples.part_db))
      = Task.Json200 None sel).
Proof.
  split.
  - destruct (proj1 decrement_result_is_not_inspected "bob"%string (1 # 20) [1]
                Examples.index_last_db)
      as (who & sel & Hres & _); [discriminate | discriminate |].
    exists who, sel. exact Hres.
  - destruct (proj2 decrement_result_is_not_inspected (1 # 20) [1]
                Examples.part_db)
      as (sel & Hres & _); [discriminate |].
    exists sel. exact Hres.
Defined.

(** C8, the failing run.  [index.ts] reads the eligible prizes with a plain
    SELECT, without [FOR UPDATE]: another draw decrements the same row between
    this draw's read and its UPDATE, and both draws win the single unit.  The
    stock itself stops at zero. *)
Theorem index_ts_reads_prizes_without_lock :
  let result :=
    IndexTs.draw (Some "bob"%string) (1 # 20) [1] None
      (Store.idle Examples.index_last_db) in
  let sold := IndexTs.mkPrize 1 "last" 3 0 100 "gold" in
  Task.trace (snd result)
  = [Task.BeginTransaction;
     Task.Execute (SelectParticipantsByName "bob");
     Task.Execute (InsertParticipant "bob");
     Task.Execute (SelectEligiblePrizes false);
     Task.CallWeightedRandom [Examples.index_last_unit];
     Task.Execute (InsertLotteryRecord 1 1);
     Task.Execute (DecrementPrize 1);
     Task.Commit;
     Task.Release] /\
  sql_text (SelectEligiblePrizes false)
  = "SELECT * FROM prizes WHERE remaining_quantity > 0"%string /\
  Store.eligible (Store.prizes Examples.index_last_db)
  = [Examples.index_last_unit] /\
  Store.other_draws [] [1] (Store.prizes Examples.index_last_db) = [sold] /\
  fst result
  = Task.Json200 (Some (mkParticipant 1 "bob")) Examples.index_last_unit /\
  Task.conn (snd result)
  = Store.idle
      (Store.mkDb [sold] [mkParticipant 1 "bob"] [mkLotteryRecord 1 1 1]).
Proof. repeat split. Qed.

(** * Further properties *)

(** ** More on the walk *)
Module WalkMore.
Section WalkMore.
Variable Row : Type.
Variable weight : Row -> Q.

Local Abbreviation walk := (Walk.walk weight).
Local Abbreviation running := (Walk.running weight).
Local Abbreviation weight_sum := (Walk.weight_sum weight).

Lemma running_sum r ps : (running r ps == r - weight_sum ps)%Q.
Proof.
  revert r. induction ps as [| q rest IH]; intros r.
  - unfold Walk.running, Walk.weight_sum. simpl. ring.
  - rewrite WalkFacts.running_cons, IH, WalkFacts.weight_sum_cons. ring.
Qed.

Lemma weight_sum_nonneg ps :
  Forall (fun q => 0 <= weight q)%Q ps -> (0 <= weight_sum ps)%Q.
Proof.
  induction 1 as [| q rest Hq Hrest IH].
  - unfold Walk.weight_sum. simpl. lra.
  - rewrite WalkFacts.weight_sum_cons. lra.
Qed.

(** A start value within the total weight stops the walk inside the array. *)
Lemma walk_within r ps :
  ps <> [] -> (r <= weight_sum ps)%Q -> exists p, walk r ps = Some p /\ In p ps.
Proof.
  intros Hne Hle. destruct (walk r ps) as [p |] eqn:Hw.
  - exists p. split; [reflexivity | now apply (WalkFacts.walk_In weight r ps)].
  - exfalso. pose proof (WalkFacts.walk_runs_off weight r ps Hw) as Hoff.
    specialize (Hoff (List.length ps)).
    rewrite firstn_all, running_sum in Hoff.
    assert (0 < List.length ps)%nat as Hlen
      by (destruct ps; [congruence | simpl; lia]).
    specialize (Hoff (conj Hlen (le_n _))). lra.
Qed.

(** A start value beyond the total of non-negative weights exhausts it. *)
Lemma walk_beyond r ps :
  Forall (fun q => 0 <= weight q)%Q ps -> (weight_sum ps < r)%Q ->
  walk r ps = None.
Proof.
  intros Hall. revert r. induction Hall as [| q rest Hq Hrest IH]; intros r Hlt.
  - reflexivity.
  - simpl. rewrite WalkFacts.weight_sum_cons in Hlt.
    pose proof (weight_sum_nonneg Hrest) as Hsum.
    destruct (Qle_bool (r - weight q) 0) eqn:Hb.
    + apply Qle_bool_iff in Hb. lra.
    + apply IH. lra.
Qed.

Lemma walk_app_some r before rest p :
  walk r before = Some p -> walk r (before ++ rest) = Some p.
Proof.
  revert r. induction before as [| q more IH]; intros r; simpl; [discriminate |].
  destruct (Qle_bool (r - weight q) 0); [easy | apply IH].
Qed.

Lemma walk_app_none r before rest :
  walk r before = None -> walk r (before ++ rest) = walk (running r before) rest.
Proof.
  revert r. induction before as [| q more IH]; intros r; simpl; [reflexivity |].
  destruct (Qle_bool (r - weight q) 0); [discriminate | apply IH].
Qed.

(** The row after [before] is picked for every start value in
    [(sum before, sum before + weight p]]; the first row also for the values
    up to [0]. *)
Lemma walk_interval r before p after :
  Forall (fun q => 0 <= weight q)%Q before ->
  before = [] \/ (weight_sum before < r)%Q ->
  (r <= weight_sum before + weight p)%Q ->
  walk r (before ++ p :: after) = Some p.
Proof.
  intros Hall Hlow Hhigh.
  assert (walk r before = None) as Hnone.
  { destruct Hlow as [-> | Hlow]; [reflexivity | now apply walk_beyond]. }
  rewrite (@walk_app_none r before (p :: after) Hnone). simpl.
  replace (Qle_bool (running r before - weight p) 0) with true; [reflexivity |].
  symmetry. apply Qle_bool_iff. rewrite running_sum. lra.
Qed.

(** A start value within the weight of [before] never reaches the rows
    behind it. *)
Lemma walk_stops_early r before rest :
  before <> [] -> (r <= weight_sum before)%Q ->
  exists q, In q before /\ walk r (before ++ rest) = Some q.
Proof.
  intros Hne Hle. destruct (walk_within Hne Hle) as (q & Hq & Hin).
  exists q. split; [exact Hin | now apply walk_app_some].
Qed.
End WalkMore.
End WalkMore.

(** ** Doubles *)
Module DoubleFacts.
Import Double.

Lemma pow2_pos e : (0 < 2 ^ e)%Q.
Proof. now apply Qpower_0_lt. Qed.

Lemma pow2_add a b : (2 ^ (a + b) == 2 ^ a * 2 ^ b)%Q.
Proof. now apply Qpower_plus. Qed.

Lemma pow2_le a b : a <= b -> (2 ^ a <= 2 ^ b)%Q.
Proof. intros H. now apply Qpower_le_compat_l. Qed.

Lemma pow2_lt a b : a < b -> (2 ^ a < 2 ^ b)%Q.
Proof. intros H. now apply Qpower_lt_compat_l. Qed.

Lemma pow2_lt_inv a b : (2 ^ a < 2 ^ b)%Q -> a < b.
Proof. intros H. now apply (Qpower_lt_compat_l_inv 2). Qed.

Lemma pow2_Z n : 0 <= n -> (inject_Z (2 ^ n) == 2 ^ n)%Q.
Proof. intros H. now rewrite Zpower_Qpower. Qed.

Lemma pow2_split a b : (2 ^ a == 2 ^ (a - b) * 2 ^ b)%Q.
Proof. rewrite <- pow2_add. now replace (a - b + b) with a by lia. Qed.

Lemma ilog2_spec q : (0 < q)%Q -> (2 ^ ilog2 q <= q < 2 ^ (ilog2 q + 1))%Q.
Proof.
  intros Hq.
  set (a := Z.log2 (Qnum q)). set (b := Z.log2 (Zpos (Qden q))).
  assert (0 < Qnum q) as Hn.
  { destruct q as [n d]. unfold Qlt in Hq. simpl in *. lia. }
  destruct (Z.log2_spec _ Hn) as [Ha1 Ha2]. fold a in Ha1, Ha2.
  destruct (Z.log2_spec (Zpos (Qden q)) eq_refl) as [Hb1 Hb2]. fold b in Hb1, Hb2.
  assert (0 <= a) as Ha0 by apply Z.log2_nonneg.
  assert (0 <= b) as Hb0 by apply Z.log2_nonneg.
  set (D := inject_Z (Zpos (Qden q))). set (N := inject_Z (Qnum q)).
  assert (q * D == N)%Q as HqD.
  { destruct q as [n d]. unfold D, N. simpl Qnum. simpl Qden.
    rewrite (Qmake_Qdiv n d). field. discriminate. }
  assert (0 < D)%Q as HD by reflexivity.
  assert (2 ^ a <= N)%Q as HaN.
  { rewrite <- pow2_Z by exact Ha0. unfold N. now rewrite <- Zle_Qle. }
  assert (N < 2 ^ (a + 1))%Q as HNa.
  { rewrite <- pow2_Z by lia. unfold N. rewrite <- Zlt_Qlt.
    now rewrite <- Z.add_1_r in Ha2. }
  assert (2 ^ b <= D)%Q as HbD.
  { rewrite <- pow2_Z by exact Hb0. unfold D. now rewrite <- Zle_Qle. }
  assert (D < 2 ^ (b + 1))%Q as HDb.
  { rewrite <- pow2_Z by lia. unfold D. rewrite <- Zlt_Qlt.
    now rewrite <- Z.add_1_r in Hb2. }
  assert (2 ^ (a - b - 1) <= q)%Q as Hlow.
  { apply (Qmult_le_r _ _ D HD). rewrite HqD.
    apply Qle_trans with (2 ^ a)%Q; [| exact HaN].
    rewrite (pow2_split a (b + 1)).
    replace (a - (b + 1)) with (a - b - 1) by lia.
    apply Qmult_le_l; [apply pow2_pos | now apply Qlt_le_weak]. }
  assert (q < 2 ^ (a - b + 1))%Q as Hhigh.
  { apply (Qmult_lt_r _ _ D HD). rewrite HqD.
    apply Qlt_le_trans with (2 ^ (a + 1))%Q; [exact HNa |].
    rewrite (pow2_split (a + 1) b).
    replace (a + 1 - b) with (a - b + 1) by lia.
    apply Qmult_le_l; [apply pow2_pos | exact HbD]. }
  unfold ilog2. fold a b.
  destruct (Qle_bool (2 ^ (a - b)) q) eqn:Htest.
  - apply Qle_bool_iff in Htest. now split.
  - split; [exact Hlow |].
    replace (a - b - 1 + 1) with (a - b) by lia.
    apply Qnot_le_lt. intros Hle. apply Qle_bool_iff in Hle. congruence.
Qed.

Lemma ilog2_below q k : (0 < q)%Q -> (q < 2 ^ k)%Q -> ilog2 q < k.
Proof.
  intros Hq Hk. apply pow2_lt_inv.
  apply Qle_lt_trans with q; [apply (ilog2_spec Hq) | exact Hk].
Qed.

Lemma ilog2_le a b : (0 < a)%Q -> (a <= b)%Q -> ilog2 a <= ilog2 b.
Proof.
  intros Ha Hab.
  assert (0 < b)%Q as Hb by (apply Qlt_le_trans with a; assumption).
  assert (ilog2 a < ilog2 b + 1); [| lia].
  apply ilog2_below; [exact Ha |].
  apply Qle_lt_trans with b; [exact Hab | apply (ilog2_spec Hb)].
Qed.

(** *** Rounding to the nearest integer, ties to even *)

#[global] Instance nearest_even_comp : Proper (Qeq ==> eq) nearest_even.
Proof.
  intros x y Hxy. unfold nearest_even.
  rewrite (Qfloor_comp _ _ Hxy).
  assert ((x - inject_Z (Qfloor y) ?= 1 # 2)%Q
          = (y - inject_Z (Qfloor y) ?= 1 # 2)%Q) as ->; [| reflexivity].
  apply Qcompare_comp; [now rewrite Hxy | reflexivity].
Qed.

Lemma nearest_even_bounds x : Qfloor x <= nearest_even x <= Qfloor x + 1.
Proof.
  unfold nearest_even.
  destruct (x - inject_Z (Qfloor x) ?= 1 # 2)%Q; [| lia | lia].
  destruct (Z.even (Qfloor x)); lia.
Qed.

Lemma nearest_even_Z z : nearest_even (inject_Z z) = z.
Proof.
  unfold nearest_even. rewrite Qfloor_Z.
  replace (inject_Z z - inject_Z z ?= 1 # 2)%Q with Lt; [reflexivity |].
  symmetry. apply (proj1 (Qlt_alt _ _)). ring_simplify. reflexivity.
Qed.

Lemma nearest_even_le x y : (x <= y)%Q -> nearest_even x <= nearest_even y.
Proof.
  intros Hxy. pose proof (Qfloor_resp_le _ _ Hxy) as Hf.
  pose proof (nearest_even_bounds x) as Hx.
  pose proof (nearest_even_bounds y) as Hy.
  destruct (Z.eq_dec (Qfloor x) (Qfloor y)) as [Heq | Hne]; [| lia].
  unfold nearest_even in *. rewrite <- Heq in *.
  destruct (Qcompare_spec (x - inject_Z (Qfloor x)) (1 # 2)) as [Hx2 | Hx2 | Hx2];
    destruct (Qcompare_spec (y - inject_Z (Qfloor x)) (1 # 2)) as [Hy2 | Hy2 | Hy2];
    try lia; exfalso; lra.
Qed.

Lemma nearest_even_small x : (0 <= x)%Q -> (x < 1 # 2)%Q -> nearest_even x = 0.
Proof.
  intros H0 H1.
  assert (Qfloor x = 0) as Hf.
  { assert (0 <= Qfloor x) as Hlow by exact (Qfloor_resp_le _ _ H0).
    pose proof (Qfloor_le x) as Hup.
    assert (inject_Z (Qfloor x) < inject_Z 1)%Q as Hlt.
    { apply Qle_lt_trans with x; [exact Hup |]. change (inject_Z 1) with 1%Q. lra. }
    rewrite <- Zlt_Qlt in Hlt. lia. }
  unfold nearest_even. rewrite Hf.
  replace (x - inject_Z 0 ?= 1 # 2)%Q with Lt; [reflexivity |].
  symmetry. apply (proj1 (Qlt_alt _ _)). change (inject_Z 0) with 0%Q. lra.
Qed.

(** *** [round64] is a rounding *)

Lemma pow2_nonzero e : ~ (2 ^ e == 0)%Q.
Proof. pose proof (pow2_pos e). lra. Qed.

Lemma dyadic_le m1 m2 e : m1 <= m2 -> (dyadic m1 e <= dyadic m2 e)%Q.
Proof.
  intros H. unfold dyadic. apply Qmult_le_r; [apply pow2_pos |].
  now rewrite <- Zle_Qle.
Qed.

Lemma dyadic_zero e : (dyadic 0 e == 0)%Q.
Proof. unfold dyadic. change (inject_Z 0) with 0%Q. ring. Qed.

Lemma dyadic_pow2 n e : 0 <= n -> (dyadic (2 ^ n) e == 2 ^ (n + e))%Q.
Proof. intros H. unfold dyadic. now rewrite pow2_Z, pow2_add. Qed.

(** [q / 2 ^ e] for a multiple [q] of [2 ^ e]. *)
Lemma scale_dyadic q m e0 e :
  (q == dyadic m e0)%Q -> e <= e0 ->
  (q / 2 ^ e == inject_Z (m * 2 ^ (e0 - e)))%Q.
Proof.
  intros Hq He. rewrite Hq. unfold dyadic.
  rewrite inject_Z_mult, pow2_Z by lia.
  rewrite (pow2_split e0 e).
  pose proof (pow2_nonzero e) as Hnz.
  set (A := (2 ^ (e0 - e))%Q). set (B := (2 ^ e)%Q) in *.
  field. exact Hnz.
Qed.

Lemma round_at q z :
  (q / 2 ^ exponent q == inject_Z z)%Q -> (round_magnitude q == q)%Q.
Proof.
  intros Hz. unfold round_magnitude. cbv zeta.
  rewrite Hz, nearest_even_Z. unfold dyadic. rewrite <- Hz.
  pose proof (pow2_nonzero (exponent q)) as Hnz.
  set (B := (2 ^ exponent q)%Q) in *. field. exact Hnz.
Qed.

Lemma round_magnitude_zero q : (q == 0)%Q -> (round_magnitude q == 0)%Q.
Proof.
  intros Hq. rewrite (@round_at q 0); [exact Hq |].
  change (inject_Z 0) with 0%Q.
  pose proof (pow2_nonzero (exponent q)) as Hnz.
  set (B := (2 ^ exponent q)%Q) in *. rewrite Hq. field. exact Hnz.
Qed.

Lemma round_magnitude_exact m e0 q :
  0 <= m < 2 ^ 53 -> -1074 <= e0 -> (q == dyadic m e0)%Q ->
  (round_magnitude q == q)%Q.
Proof.
  intros [Hm0 Hm1] He0 Hq.
  destruct (Z.eq_dec m 0) as [-> | Hne].
  { rewrite dyadic_zero in Hq. rewrite Hq at 2. now apply round_magnitude_zero. }
  assert (0 < q)%Q as Hpos.
  { rewrite Hq. unfold dyadic. apply Qmult_lt_0_compat; [| apply pow2_pos].
    change 0%Q with (inject_Z 0). rewrite <- Zlt_Qlt. lia. }
  assert (q < 2 ^ (53 + e0))%Q as Hlt.
  { rewrite Hq, <- (@dyadic_pow2 53 e0) by lia. unfold dyadic.
    apply Qmult_lt_r; [apply pow2_pos |]. now rewrite <- Zlt_Qlt. }
  pose proof (@ilog2_below q (53 + e0) Hpos Hlt) as Hlog.
  assert (exponent q <= e0) as He by (unfold exponent; lia).
  apply (@round_at q (m * 2 ^ (e0 - exponent q))).
  now apply scale_dyadic.
Qed.

Lemma scale_le a b e : (a <= b)%Q -> (a / 2 ^ e <= b / 2 ^ e)%Q.
Proof.
  intros H. unfold Qdiv. apply Qmult_le_r; [| exact H].
  apply Qinv_lt_0_compat, pow2_pos.
Qed.

Lemma scale_pow2 k e : (2 ^ k / 2 ^ e == 2 ^ (k - e))%Q.
Proof.
  rewrite (pow2_split k e).
  pose proof (pow2_nonzero e) as Hnz.
  set (A := (2 ^ (k - e))%Q). set (B := (2 ^ e)%Q) in *. field. exact Hnz.
Qed.

Lemma round_magnitude_nonneg q : (0 <= q)%Q -> (0 <= round_magnitude q)%Q.
Proof.
  intros Hq. unfold round_magnitude. cbv zeta.
  rewrite <- (dyadic_zero (exponent q)). apply dyadic_le.
  rewrite <- (nearest_even_Z 0). apply nearest_even_le.
  change (inject_Z 0) with 0%Q.
  apply Qle_shift_div_l; [apply pow2_pos |]. lra.
Qed.

(** A positive value is not rounded beyond the next power of two ... *)
Lemma round_magnitude_upper q :
  (0 < q)%Q -> (round_magnitude q <= 2 ^ (ilog2 q + 1))%Q.
Proof.
  intros Hq. destruct (ilog2_spec Hq) as [_ Hhigh].
  set (L := ilog2 q) in *.
  assert (L - 52 <= exponent q) as He by (unfold exponent; fold L; lia).
  set (e := exponent q) in *.
  assert (q / 2 ^ e <= 2 ^ (L + 1 - e))%Q as Hx.
  { rewrite <- scale_pow2. apply scale_le. now apply Qlt_le_weak. }
  unfold round_magnitude. cbv zeta. fold e.
  destruct (Z.le_gt_cases 0 (L + 1 - e)) as [Hge | Hneg].
  - apply Qle_trans with (dyadic (2 ^ (L + 1 - e)) e).
    + apply dyadic_le.
      rewrite <- (nearest_even_Z (2 ^ (L + 1 - e))). apply nearest_even_le.
      now rewrite pow2_Z.
    + rewrite dyadic_pow2 by exact Hge.
      replace (L + 1 - e + e) with (L + 1) by lia. apply Qle_refl.
  - rewrite nearest_even_small.
    + rewrite dyadic_zero. apply Qlt_le_weak, pow2_pos.
    + apply Qle_shift_div_l; [apply pow2_pos |]. lra.
    + apply Qlt_le_trans with (2 ^ (L + 1 - e))%Q.
      * rewrite <- scale_pow2. unfold Qdiv. apply Qmult_lt_r; [| exact Hhigh].
        apply Qinv_lt_0_compat, pow2_pos.
      * change (1 # 2)%Q with (2 ^ (-1))%Q. apply pow2_le. lia.
Qed.

(** ... nor, outside the subnormal range, below the last one. *)
Lemma round_magnitude_lower q :
  (0 < q)%Q -> -1074 <= ilog2 q - 52 -> (2 ^ ilog2 q <= round_magnitude q)%Q.
Proof.
  intros Hq Hnormal. destruct (ilog2_spec Hq) as [Hlow _].
  set (L := ilog2 q) in *.
  assert (exponent q = L - 52) as He by (unfold exponent; fold L; lia).
  unfold round_magnitude. cbv zeta. rewrite He.
  apply Qle_trans with (dyadic (2 ^ 52) (L - 52)).
  - rewrite dyadic_pow2 by lia.
    replace (52 + (L - 52)) with L by lia. apply Qle_refl.
  - apply dyadic_le.
    rewrite <- (nearest_even_Z (2 ^ 52)) at 1. apply nearest_even_le.
    apply Qle_trans with (2 ^ L / 2 ^ (L - 52))%Q; [| now apply scale_le].
    rewrite scale_pow2, pow2_Z by lia.
    replace (L - (L - 52)) with 52 by lia. apply Qle_refl.
Qed.

Lemma round_magnitude_le a b :
  (0 <= a)%Q -> (a <= b)%Q -> (round_magnitude a <= round_magnitude b)%Q.
Proof.
  intros Ha Hab.
  assert (0 <= b)%Q as Hb by lra.
  destruct (Qlt_le_dec 0 a) as [Hpos | Hzero].
  2: { rewrite (@round_magnitude_zero a) by lra. now apply round_magnitude_nonneg. }
  assert (0 < b)%Q as Hbpos by lra.
  pose proof (ilog2_le Hpos Hab) as Hlog.
  destruct (Z.eq_dec (exponent a) (exponent b)) as [Heq | Hne].
  - unfold round_magnitude. cbv zeta. rewrite Heq.
    apply dyadic_le, nearest_even_le. now apply scale_le.
  - assert (-1074 <= ilog2 b - 52 /\ ilog2 a + 1 <= ilog2 b) as [Hnormal Hstep]
      by (unfold exponent in Hne; lia).
    apply Qle_trans with (2 ^ (ilog2 a + 1))%Q;
      [now apply round_magnitude_upper |].
    apply Qle_trans with (2 ^ ilog2 b)%Q;
      [now apply pow2_le | now apply round_magnitude_lower].
Qed.

Lemma Qle_bool_false x y : Qle_bool x y = false -> (y < x)%Q.
Proof.
  intros H. apply Qnot_le_lt. intros Hle. apply Qle_bool_iff in Hle. congruence.
Qed.

Lemma round64_exact q : representable q -> (round64 q == q)%Q.
Proof.
  intros (m & e & Hm & [He _] & Hq). unfold round64.
  pose proof (pow2_pos e) as Hp.
  destruct (Qle_bool 0 q) eqn:Hsign.
  - apply Qle_bool_iff in Hsign.
    apply (@round_magnitude_exact m e); [| exact He | exact Hq].
    split; [| lia].
    destruct (Z.le_gt_cases 0 m) as [H0 | Hneg]; [exact H0 | exfalso].
    assert (inject_Z m < 0)%Q as Hm'
      by (change 0%Q with (inject_Z 0); rewrite <- Zlt_Qlt; lia).
    assert (dyadic m e < 0)%Q; [| lra].
    unfold dyadic. setoid_replace 0%Q with (0 * 2 ^ e)%Q by ring.
    now apply Qmult_lt_r.
  - apply Qle_bool_false in Hsign.
    rewrite (@round_magnitude_exact (- m) e (- q)).
    + ring.
    + split; [| lia].
      destruct (Z.le_gt_cases m 0) as [H0 | Hpos]; [lia | exfalso].
      assert (0 < inject_Z m)%Q as Hm'
        by (change 0%Q with (inject_Z 0); rewrite <- Zlt_Qlt; lia).
      assert (0 < dyadic m e)%Q; [| lra].
      unfold dyadic. now apply Qmult_lt_0_compat.
    + exact He.
    + rewrite Hq. unfold dyadic. rewrite inject_Z_opp. ring.
Qed.

Lemma round64_le a b : (a <= b)%Q -> (round64 a <= round64 b)%Q.
Proof.
  intros Hab. unfold round64.
  destruct (Qle_bool 0 a) eqn:Ha; destruct (Qle_bool 0 b) eqn:Hb.
  - apply Qle_bool_iff in Ha. now apply round_magnitude_le.
  - apply Qle_bool_iff in Ha. apply Qle_bool_false in Hb. lra.
  - apply Qle_bool_false in Ha. apply Qle_bool_iff in Hb.
    pose proof (@round_magnitude_nonneg (- a) ltac:(lra)).
    pose proof (@round_magnitude_nonneg b Hb). lra.
  - apply Qle_bool_false in Ha. apply Qle_bool_false in Hb.
    pose proof (@round_magnitude_le (- b) (- a) ltac:(lra) ltac:(lra)). lra.
Qed.

Lemma round64_rounding : rounding round64.
Proof. split; [exact round64_exact | exact round64_le]. Qed.

(** *** The rounded walk on whole weights *)

Lemma representable_zero : representable 0.
Proof.
  exists 0, 0. split; [reflexivity |]. split; [lia |]. now rewrite dyadic_zero.
Qed.

Lemma rounding_comp fl a b : rounding fl -> (a == b)%Q -> (fl a == fl b)%Q.
Proof.
  intros [_ Hmono] Hab. apply Qle_antisym; apply Hmono; rewrite Hab; apply Qle_refl.
Qed.

(** Taking a whole number off a double below [2 ^ 53] is exact as long as
    the difference stays positive. *)
Lemma representable_sub r n :
  representable r -> (r < 2 ^ 53)%Q -> 0 <= n -> (0 < r - inject_Z n)%Q ->
  representable (r - inject_Z n).
Proof.
  intros (m & e & Hm & [He1 He2] & Hr) Hbound Hn Hpos.
  pose proof (pow2_pos e) as Hp.
  assert (0 <= inject_Z n)%Q as Hn'
    by (change 0%Q with (inject_Z 0); now rewrite <- Zle_Qle).
  destruct (Z.le_gt_cases 0 e) as [Hge | Hneg].
  - assert (r == inject_Z (m * 2 ^ e))%Q as Hr'
      by (rewrite Hr; unfold dyadic; now rewrite inject_Z_mult, pow2_Z).
    exists (m * 2 ^ e - n), 0.
    assert (0 < m * 2 ^ e - n < 2 ^ 53) as Hk.
    { split.
      - rewrite Zlt_Qlt. unfold Z.sub.
        rewrite inject_Z_plus, inject_Z_opp, <- Hr'. exact Hpos.
      - assert (m * 2 ^ e < 2 ^ 53); [| lia].
        rewrite Zlt_Qlt, <- Hr', pow2_Z by lia. exact Hbound. }
    split; [lia |]. split; [lia |].
    unfold dyadic, Z.sub. rewrite inject_Z_plus, inject_Z_opp, <- Hr'.
    change (2 ^ 0)%Q with 1%Q. ring.
  - assert (inject_Z n == inject_Z (n * 2 ^ (- e)) * 2 ^ e)%Q as Hscaled.
    { rewrite inject_Z_mult, pow2_Z by lia.
      rewrite <- Qmult_assoc, <- pow2_add.
      replace (- e + e) with 0 by lia. change (2 ^ 0)%Q with 1%Q. ring. }
    assert (r - inject_Z n == dyadic (m - n * 2 ^ (- e)) e)%Q as Hdiff.
    { unfold dyadic, Z.sub. rewrite inject_Z_plus, inject_Z_opp.
      rewrite Hr, Hscaled at 1. unfold dyadic. ring. }
    assert (0 <= n * 2 ^ (- e)) as Hoff by (apply Z.mul_nonneg_nonneg; lia).
    assert (0 < m - n * 2 ^ (- e)) as Hk.
    { destruct (Z.le_gt_cases (m - n * 2 ^ (- e)) 0) as [Hle | Hgt]; [| lia].
      exfalso. pose proof (@dyadic_le _ 0 e Hle) as Habs.
      rewrite dyadic_zero, <- Hdiff in Habs. lra. }
    exists (m - n * 2 ^ (- e)), e.
    split; [lia |]. split; [lia | exact Hdiff].
Qed.

Lemma whole_nonneg q : whole q -> (0 <= q)%Q.
Proof.
  intros (n & Hn & ->). change 0%Q with (inject_Z 0). now rewrite <- Zle_Qle.
Qed.

(** On whole weights and a start value that is a double below [2 ^ 53], the
    rounded loop computes every running value exactly and so agrees with the
    loop in exact arithmetic. *)
Lemma walk_exact fl (Row : Type) (weight : Row -> Q) prizes :
  rounding fl -> Forall (fun p => whole (weight p)) prizes ->
  forall r r', (r' == r)%Q -> representable r -> (r < 2 ^ 53)%Q ->
  Double.walk fl weight r' prizes = Walk.walk weight r prizes.
Proof.
  intros Hfl Hall.
  induction Hall as [| p rest Hp Hrest IH]; intros r r' Heq Hrep Hbound;
    [reflexivity |].
  pose proof (whole_nonneg Hp) as Hw. destruct Hp as (n & Hn & Hp).
  cbn [Double.walk Walk.walk]. cbv zeta.
  assert (fl (r' - weight p) == fl (r - weight p))%Q as Hfl'
    by (apply rounding_comp; [exact Hfl | now rewrite Heq]).
  destruct (Qlt_le_dec 0 (r - weight p)) as [Hpos | Hneg].
  - assert (representable (r - weight p)) as Hrep'.
    { destruct (@representable_sub r n Hrep Hbound Hn) as (m & e & Hm & He & Hd).
      - now rewrite <- Hp.
      - exists m, e. split; [exact Hm |]. split; [exact He |].
        now rewrite Hp. }
    assert (fl (r' - weight p) == r - weight p)%Q as Hsame
      by (rewrite Hfl'; now apply (proj1 Hfl)).
    replace (Qle_bool (fl (r' - weight p)%Q) 0) with false
      by (symmetry; apply not_true_is_false; rewrite Qle_bool_iff; lra).
    replace (Qle_bool (r - weight p)%Q 0) with false
      by (symmetry; apply not_true_is_false; rewrite Qle_bool_iff; lra).
    apply IH; [exact Hsame | exact Hrep' | lra].
  - assert (fl (r' - weight p) <= 0)%Q as Hstop.
    { rewrite Hfl'. apply Qle_trans with (fl 0%Q); [now apply (proj2 Hfl) |].
      rewrite (proj1 Hfl 0%Q representable_zero). apply Qle_refl. }
    replace (Qle_bool (fl (r' - weight p)%Q) 0) with true
      by (symmetry; now apply Qle_bool_iff).
    replace (Qle_bool (r - weight p)%Q 0) with true
      by (symmetry; now apply Qle_bool_iff).
    reflexivity.
Qed.
End DoubleFacts.

(** With probabilities that are not whole numbers the loop on doubles can
    stop a row early.  The probabilities 4.78, 16.18 and 17.24 and
    [Math.random() = 0.2096]: the start value is the double 20.96 and exceeds
    the weight of the first two rows, so that in exact arithmetic the third
    row is picked; on doubles [20.96 - 4.78 - 16.18] is [0] and the second
    row is returned. *)
Lemma fractional_weights_stop_early :
  let u := Double.round64 (2096 # 10000) in
  let r := Double.round64 (u * 100) in
  (r == Double.round64 (2096 # 100))%Q /\
  (Walk.weight_sum IndexTs.weight (firstn 2 Double.fractional) < r)%Q /\
  IndexTs.walk r Double.fractional = nth_error Double.fractional 2 /\
  Double.walk Double.round64 IndexTs.weight r Double.fractional
  = nth_error Double.fractional 1 /\
  Double.index_weightedRandom Double.round64 u Double.fractional
  = nth_error Double.fractional 1.
Proof. vm_compute. repeat split. Qed.

Lemma whole_weights_nonneg (Row : Type) (weight : Row -> Q) rows :
  Forall (fun q => Double.whole (weight q)) rows ->
  Forall (fun q => 0 <= weight q)%Q rows.
Proof.
  intros Hall. eapply Forall_impl; [| exact Hall].
  intros q. apply DoubleFacts.whole_nonneg.
Qed.

Lemma quantities_whole rows :
  Forall (fun q => 0 <= Part000.total_quantity q) rows ->
  Forall (fun q => Double.whole (Part000.weight q)) rows.
Proof.
  intros Hall. eapply Forall_impl; [| exact Hall].
  intros q Hq. exists (Part000.total_quantity q). split; [exact Hq | reflexivity].
Qed.

(** X1.  Which row the loop of [weightedRandom] picks on doubles, for
    weights that are whole numbers and a start value that is a double below
    [2 ^ 53]: whatever the rounding, every running value is then computed
    exactly, and the loop picks the row behind [before] for every start value
    above the total weight of [before] and up to that total plus its own
    weight (the first row also for every value up to its weight, zero
    included); for a value within the total weight of [before] it stops
    inside [before] and never reaches the rows behind it.  The loop in exact
    arithmetic picks the same row.  (With fractional weights the loop on
    doubles can stop a row early: [fractional_weights_stop_early].) *)
Theorem walk_picks_by_cumulative_weight :
  forall fl, Double.rounding fl ->
  (forall r before p after,
     Double.representable r -> (r < 2 ^ 53)%Q ->
     Forall (fun q => Double.whole (IndexTs.probability q))
       (before ++ p :: after) ->
     before = [] \/ (Walk.weight_sum IndexTs.weight before < r)%Q ->
     (r <= Walk.weight_sum IndexTs.weight before + IndexTs.probability p)%Q ->
     Double.walk fl IndexTs.weight r (before ++ p :: after) = Some p /\
     IndexTs.walk r (before ++ p :: after) = Some p)
  /\
  (forall r before rest,
     Double.representable r -> (r < 2 ^ 53)%Q ->
     Forall (fun q => Double.whole (IndexTs.probability q)) (before ++ rest) ->
     before <> [] -> (r <= Walk.weight_sum IndexTs.weight before)%Q ->
     exists q,
       In q before /\
       Double.walk fl IndexTs.weight r (before ++ rest) = Some q /\
       IndexTs.walk r (before ++ rest) = Some q)
  /\
  (forall r before p after,
     Double.representable r -> (r < 2 ^ 53)%Q ->
     Forall (fun q => 0 <= Part000.total_quantity q) (before ++ p :: after) ->
     before = [] \/ (Walk.weight_sum Part000.weight before < r)%Q ->
     (r <= Walk.weight_sum Part000.weight before
           + inject_Z (Part000.total_quantity p))%Q ->
     Double.walk fl Part000.weight r (before ++ p :: after) = Some p /\
     Part000.walk r (before ++ p :: after) = Some p)
  /\
  (forall r before rest,
     Double.representable r -> (r < 2 ^ 53)%Q ->
     Forall (fun q => 0 <= Part000.total_quantity q) (before ++ rest) ->
     before <> [] -> (r <= Walk.weight_sum Part000.weight before)%Q ->
     exists q,
       In q before /\
       Double.walk fl Part000.weight r (before ++ rest) = Some q /\
       Part000.walk r (before ++ rest) = Some q).
Proof.
  intros fl Hfl. split; [| split; [| split]].
  - intros r before p after Hrep Hbound Hall Hlow Hhigh.
    pose proof (@DoubleFacts.walk_exact fl _ IndexTs.weight _ Hfl Hall r r
                  (Qeq_refl r) Hrep Hbound) as Hexact.
    apply whole_weights_nonneg, Forall_app in Hall.
    assert (Walk.walk IndexTs.weight r (before ++ p :: after) = Some p)
      as Hpick by (apply WalkMore.walk_interval; tauto).
    split; [now rewrite Hexact | now rewrite IndexTs_walk].
  - intros r before rest Hrep Hbound Hall Hne Hle.
    pose proof (@DoubleFacts.walk_exact fl _ IndexTs.weight _ Hfl Hall r r
                  (Qeq_refl r) Hrep Hbound) as Hexact.
    destruct (WalkMore.walk_stops_early IndexTs.weight rest Hne Hle)
      as (q & Hin & Hq).
    exists q. split; [exact Hin |].
    split; [now rewrite Hexact | now rewrite IndexTs_walk].
  - intros r before p after Hrep Hbound Hall Hlow Hhigh.
    apply quantities_whole in Hall.
    pose proof (@DoubleFacts.walk_exact fl _ Part000.weight _ Hfl Hall r r
                  (Qeq_refl r) Hrep Hbound) as Hexact.
    apply whole_weights_nonneg, Forall_app in Hall.
    assert (Walk.walk Part000.weight r (before ++ p :: after) = Some p)
      as Hpick by (apply WalkMore.walk_interval; tauto).
    split; [now rewrite Hexact | now rewrite Part000_walk].
  - intros r before rest Hrep Hbound Hall Hne Hle.
    apply quantities_whole in Hall.
    pose proof (@DoubleFacts.walk_exact fl _ Part000.weight _ Hfl Hall r r
                  (Qeq_refl r) Hrep Hbound) as Hexact.
    destruct (WalkMore.walk_stops_early Part000.weight rest Hne Hle)
      as (q & Hin & Hq).
    exists q. split; [exact Hin |].
    split; [now rewrite Hexact | now rewrite Part000_walk].
Qed.

Lemma walk_picks_by_cumulative_weight_witness :
  (Double.walk Double.round64 IndexTs.weight 50
     ([Examples.index_small; Examples.index_medium]
        ++ Examples.index_sold_out :: [])
   = Some Examples.index_sold_out /\
   IndexTs.walk 50 ([Examples.index_small; Examples.index_medium]
                      ++ Examples.index_sold_out :: [])
   = Some Examples.index_sold_out) /\
  exists q, In q Examples.part_two /\
            Double.walk Double.round64 Part000.weight 100
              (Examples.part_two ++ []) = Some q /\
            Part000.walk 100 (Examples.part_two ++ []) = Some q.
Proof.
  destruct (walk_picks_by_cumulative_weight DoubleFacts.round64_rounding)
    as (Hindex & _ & _ & Hpart).
  split.
  - apply Hindex.
    + exists 50, 0. split; [reflexivity |]. split; [lia | reflexivity].
    + reflexivity.
    + repeat constructor;
        [exists 10 | exists 20 | exists 70]; split; (lia || reflexivity).
    + right. reflexivity.
    + discriminate.
  - apply Hpart.
    + exists 100, 0. split; [reflexivity |]. split; [lia | reflexivity].
    + reflexivity.
    + repeat constructor; simpl; lia.
    + discriminate.
    + discriminate.
Defined.

(** X2.  In [part_000] the fallback [prizes[prizes.length - 1]] is never
    needed: the start value [Math.random() * totalWeight] does not exceed the
    total weight when that is non-negative, so on a non-empty array the loop
    itself returns a row. *)
Theorem part000_fallback_is_never_needed :
  forall u prizes,
    (0 <= u < 1)%Q -> prizes <> [] -> (0 <= Part000.totalWeight prizes)%Q ->
    exists p,
      Part000.walk (Part000.random_start u prizes) prizes = Some p /\
      Part000.weightedRandom u prizes = Some p /\
      In p prizes.
Proof.
  intros u prizes [Hu0 Hu1] Hne HW.
  assert (Part000.random_start u prizes
          <= Walk.weight_sum Part000.weight prizes)%Q as Hle.
  { unfold Part000.random_start. rewrite Part000_totalWeight in *.
    set (W := Walk.weight_sum Part000.weight prizes) in *.
    assert (0 <= (1 - u) * W)%Q by (apply Qmult_le_0_compat; lra).
    lra. }
  destruct (WalkMore.walk_within Part000.weight Hne Hle) as (p & Hp & Hin).
  exists p. rewrite <- Part000_walk in Hp.
  split; [exact Hp |]. split; [| exact Hin].
  unfold Part000.weightedRandom. now rewrite Hp.
Qed.

Lemma part000_fallback_is_never_needed_witness :
  exists p,
    Part000.walk (Part000.random_start (1 # 20) Examples.part_two)
      Examples.part_two = Some p /\
    Part000.weightedRandom (1 # 20) Examples.part_two = Some p /\
    In p Examples.part_two.
Proof.
  apply part000_fallback_is_never_needed.
  - split; [discriminate | reflexivity].
  - discriminate.
  - discriminate.
Defined.

(** X3.  In [index.ts], on doubles, for probabilities that are whole
    numbers: when they add up to less than [Math.random() * 100] (the rounded
    product, a double), the loop runs off the end and the last row of the
    array is returned. *)
Theorem index_ts_excess_goes_to_last_row :
  forall fl, Double.rounding fl ->
  forall u front last,
    (0 <= u < 1)%Q ->
    Double.representable (fl (u * 100)%Q) ->
    Forall (fun q => Double.whole (IndexTs.probability q)) (front ++ [last]) ->
    (Walk.weight_sum IndexTs.weight (front ++ [last]) < fl (u * 100))%Q ->
    Double.walk fl IndexTs.weight (fl (u * 100)%Q) (front ++ [last]) = None /\
    Double.index_weightedRandom fl u (front ++ [last]) = Some last.
Proof.
  intros fl Hfl u front last [Hu0 Hu1] Hrep Hall Hlt.
  assert (fl (u * 100) < 2 ^ 53)%Q as Hbound.
  { apply Qle_lt_trans with (fl 100%Q); [apply (proj2 Hfl); lra |].
    assert (Double.representable 100) as Hhundred.
    { exists 100, 0. split; [reflexivity |]. split; [lia | reflexivity]. }
    rewrite (proj1 Hfl 100%Q Hhundred). reflexivity. }
  assert (Double.walk fl IndexTs.weight (fl (u * 100)%Q) (front ++ [last]) = None)
    as Hw.
  { rewrite (@DoubleFacts.walk_exact fl _ IndexTs.weight _ Hfl Hall _ _
               (Qeq_refl _) Hrep Hbound).
    apply WalkMore.walk_beyond; [now apply whole_weights_nonneg | exact Hlt]. }
  split; [exact Hw |].
  unfold Double.index_weightedRandom. cbv zeta. rewrite Hw. apply js_index_last.
Qed.

Lemma index_ts_excess_goes_to_last_row_witness :
  Double.walk Double.round64 IndexTs.weight (Double.round64 ((1 # 2) * 100))
    ([Examples.index_small] ++ [Examples.index_medium]) = None /\
  Double.index_weightedRandom Double.round64 (1 # 2)
    ([Examples.index_small] ++ [Examples.index_medium])
  = Some Examples.index_medium.
Proof.
  apply (index_ts_excess_goes_to_last_row DoubleFacts.round64_rounding).
  - split; [discriminate | reflexivity].
  - exists 50, 0. split; [reflexivity |]. split; [lia | reflexivity].
  - repeat constructor; [exists 10 | exists 20]; split; (lia || reflexivity).
  - reflexivity.
Defined.

(** ** Stock *)
Module StockFacts.
Section StockFacts.
Context {P : Type} {PR : PrizeRow P}.

Lemma stock_app (xs ys : list P) :
  Sequence.stock (xs ++ ys) = Sequence.stock xs + Sequence.stock ys.
Proof.
  unfold Sequence.stock. induction xs as [| x rest IH]; simpl; [reflexivity |].
  rewrite IH. lia.
Qed.

Lemma stock_nonneg (rows : list P) :
  Store.nonneg rows -> 0 <= Sequence.stock rows.
Proof.
  unfold Store.nonneg, Sequence.stock.
  induction 1 as [| p rest Hp Hrest IH]; simpl; lia.
Qed.

(** With no negative stock, nothing is eligible exactly when the stock is
    zero. *)
Lemma sold_out_iff (rows : list P) :
  Store.nonneg rows -> (Store.eligible rows = [] <-> Sequence.stock rows = 0).
Proof.
  unfold Store.nonneg, Store.eligible, Sequence.stock.
  induction 1 as [| p rest Hp Hrest IH]; simpl; [tauto |].
  pose proof (stock_nonneg Hrest) as Hsum. unfold Sequence.stock in Hsum.
  destruct (Z.ltb_spec 0 (row_remaining p)) as [Hpos | Hzero].
  - split; [discriminate | lia].
  - rewrite IH. lia.
Qed.

Lemma one_decrement_stock (before after : list P) p :
  Store.one_decrement before after p ->
  Sequence.stock after = Sequence.stock before - 1.
Proof.
  intros (front & back & -> & _ & ->). rewrite !stock_app.
  unfold Sequence.stock at 2 4. simpl. rewrite row_remaining_set. lia.
Qed.

Lemma decrement_keeps_ids id (rows : list P) :
  Store.unique_ids rows -> Store.unique_ids (Store.decrement id rows).
Proof.
  unfold Store.unique_ids, Store.decrement. rewrite map_map.
  now rewrite (map_ext _ row_id (StoreFacts.decrement_row_id id)).
Qed.

(** What the decrement for an eligible row does to a well-formed table. *)
Lemma decrement_eligible (rows : list P) sel :
  Store.nonneg rows -> Store.unique_ids rows -> In sel (Store.eligible rows) ->
  let after := Store.decrement (row_id sel) rows in
  Store.nonneg after /\ Store.unique_ids after /\
  Sequence.stock after = Sequence.stock rows - 1.
Proof.
  intros Hnn Huniq Hin after. subst after.
  apply StoreFacts.eligible_In in Hin. destruct Hin as [Hin Hpos].
  split; [now apply StoreFacts.decrement_nonneg |].
  split; [now apply decrement_keeps_ids |].
  apply (@one_decrement_stock _ _ sel).
  now apply StoreFacts.decrement_one.
Qed.
End StockFacts.
End StockFacts.

(** One draw of [part_000] on an idle connection, nothing failing. *)
Lemma Part000_step u db :
  let result := Part000.draw u [] None (Store.idle db) in
  let after := Store.committed (Task.conn (snd result)) in
  (Store.eligible (Store.prizes db) = [] /\
   Sequence.succeeded (fst result) = false /\ after = db)
  \/
  (exists sel,
      In sel (Store.eligible (Store.prizes db)) /\
      fst result = Task.Json200 None sel /\
      Store.prizes after = Store.decrement (Part000.id sel) (Store.prizes db)).
Proof.
  intros result after. subst result after.
  destruct (Part000_draw_cases u [] None db)
    as [(_ & Hf & _) | [(Hr & Hnil & Hc) | Hok]]; [congruence | |].
  - left. rewrite Hr, Hc. auto.
  - right. destruct Hok as (sel & _ & _ & Hr & _).
    destruct (Part000_success _ _ _ _ Hr) as (Hin & ->).
    exists sel. auto.
Qed.

(** One draw of [index.ts] on an idle connection, nothing failing. *)
Lemma IndexTs_step participantName u db :
  participantName <> ""%string ->
  let result := IndexTs.draw (Some participantName) u [] None (Store.idle db) in
  let after := Store.committed (Task.conn (snd result)) in
  (Store.eligible (Store.prizes db) = [] /\
   Sequence.succeeded (fst result) = false /\ after = db)
  \/
  (exists who sel,
      In sel (Store.eligible (Store.prizes db)) /\
      fst result = Task.Json200 (Some who) sel /\
      Store.prizes after = Store.decrement (IndexTs.id sel) (Store.prizes db)).
Proof.
  intros Hname result after. subst result after.
  destruct (Store.eligible (Store.prizes db)) as [| p rows] eqn:Hrows.
  - left. split; [reflexivity |].
    destruct (fst (IndexTs.draw (Some participantName) u [] None (Store.idle db)))
      as [participant sel | status error] eqn:Hres.
    + destruct (IndexTs_success _ _ _ _ _ Hres) as (_ & _ & Hin & _).
      rewrite Hrows in Hin. destruct Hin.
    + split; [reflexivity |].
      destruct (IndexTs_failure _ _ _ _ _ Hres) as [-> | ->]; [reflexivity |].
      now apply StoreFacts.with_prizes_same.
  - right.
    destruct (@IndexTs_draw_succeeds participantName u [] db Hname)
      as (participant & sel & _ & Hres); [congruence |].
    destruct (IndexTs_success _ _ _ _ _ Hres)
      as (who & -> & Hin & _ & Hprizes & _).
    exists who, sel. rewrite <- Hrows. auto.
Qed.

(** X4.  Draws made one after the other, nothing failing, on a table with
    unique ids and no negative stock: exactly [min (number of draws) (units
    in stock)] of them succeed, the stock goes down by the number of
    successes, and no stock becomes negative; in both files. *)
Theorem stock_bounds_successful_draws :
  (forall us db,
     Store.nonneg (Store.prizes db) -> Store.unique_ids (Store.prizes db) ->
     let run := Sequence.part000_draws us db in
     Sequence.successes (fst run)
     = Nat.min (List.length us) (Z.to_nat (Sequence.stock (Store.prizes db))) /\
     Sequence.stock (Store.prizes (snd run))
     = Sequence.stock (Store.prizes db) - Z.of_nat (Sequence.successes (fst run)) /\
     Store.nonneg (Store.prizes (snd run)))
  /\
  (forall requests db,
     Forall (fun request => fst request <> ""%string) requests ->
     Store.nonneg (Store.prizes db) -> Store.unique_ids (Store.prizes db) ->
     let run := Sequence.index_draws requests db in
     Sequence.successes (fst run)
     = Nat.min (List.length requests)
         (Z.to_nat (Sequence.stock (Store.prizes db))) /\
     Sequence.stock (Store.prizes (snd run))
     = Sequence.stock (Store.prizes db) - Z.of_nat (Sequence.successes (fst run)) /\
     Store.nonneg (Store.prizes (snd run))).
Proof.
  split.
  - induction us as [| u rest IH]; intros db Hnn Huniq run; subst run.
    + simpl. repeat split; [lia | exact Hnn].
    + cbn [Sequence.part000_draws List.length].
      destruct (Part000_step u db) as [(Hnil & Hfail & Hsame) | Hok].
      * rewrite Hsame.
        destruct (Sequence.part000_draws rest db) as [responses final] eqn:Hrun.
        specialize (IH db Hnn Huniq). rewrite Hrun in IH. cbn [fst snd] in IH.
        destruct IH as (Hcount & Hstock & Hfinal).
        apply (StockFacts.sold_out_iff Hnn) in Hnil.
        unfold Sequence.successes in *. cbn [fst snd filter].
        rewrite Hfail, Hnil in *.
        repeat split; [lia | lia | exact Hfinal].
      * destruct Hok as (sel & Hin & Hres & Hprizes).
        pose proof (@StockFacts.decrement_eligible _ _ _ _ Hnn Huniq Hin)
          as (Hnn' & Huniq' & Hstock').
        change (row_id sel) with (Part000.id sel) in *.
        rewrite <- Hprizes in *.
        destruct (Sequence.part000_draws rest _) as [responses final] eqn:Hrun.
        specialize (IH _ Hnn' Huniq'). rewrite Hrun in IH. cbn [fst snd] in IH.
        destruct IH as (Hcount & Hstock & Hfinal).
        assert (0 < Sequence.stock (Store.prizes db)) as Hpos.
        { pose proof (StockFacts.stock_nonneg Hnn) as H0.
          destruct (Z.eq_dec (Sequence.stock (Store.prizes db)) 0) as [Hz |]; [| lia].
          apply (StockFacts.sold_out_iff Hnn) in Hz. rewrite Hz in Hin.
          destruct Hin. }
        unfold Sequence.successes in *. cbn [fst snd filter].
        rewrite Hres. cbn [Sequence.succeeded List.length].
        repeat split; [lia | lia | exact Hfinal].
  - induction requests as [| [participantName u] rest IH];
      intros db Hnames Hnn Huniq run; subst run.
    + simpl. repeat split; [lia | exact Hnn].
    + cbn [Sequence.index_draws List.length].
      inversion Hnames as [| ? ? Hname Hrest]; subst. simpl in Hname.
      destruct (IndexTs_step u db Hname) as [(Hnil & Hfail & Hsame) | Hok].
      * rewrite Hsame.
        destruct (Sequence.index_draws rest db) as [responses final] eqn:Hrun.
        specialize (IH db Hrest Hnn Huniq). rewrite Hrun in IH. cbn [fst snd] in IH.
        destruct IH as (Hcount & Hstock & Hfinal).
        apply (StockFacts.sold_out_iff Hnn) in Hnil.
        unfold Sequence.successes in *. cbn [fst snd filter].
        rewrite Hfail, Hnil in *.
        repeat split; [lia | lia | exact Hfinal].
      * destruct Hok as (who & sel & Hin & Hres & Hprizes).
        pose proof (@StockFacts.decrement_eligible _ _ _ _ Hnn Huniq Hin)
          as (Hnn' & Huniq' & Hstock').
        change (row_id sel) with (IndexTs.id sel) in *.
        rewrite <- Hprizes in *.
        destruct (Sequence.index_draws rest _) as [responses final] eqn:Hrun.
        specialize (IH _ Hrest Hnn' Huniq'). rewrite Hrun in IH. cbn [fst snd] in IH.
        destruct IH as (Hcount & Hstock & Hfinal).
        assert (0 < Sequence.stock (Store.prizes db)) as Hpos.
        { pose proof (StockFacts.stock_nonneg Hnn) as H0.
          destruct (Z.eq_dec (Sequence.stock (Store.prizes db)) 0) as [Hz |]; [| lia].
          apply (StockFacts.sold_out_iff Hnn) in Hz. rewrite Hz in Hin.
          destruct Hin. }
        unfold Sequence.successes in *. cbn [fst snd filter].
        rewrite Hres. cbn [Sequence.succeeded List.length].
        repeat split; [lia | lia | exact Hfinal].
Qed.

(** ** How a run ends *)

Lemma ends_with_rev (A : Type) (xs suffix rest : list A) :
  rev xs = rev suffix ++ rest -> ends_with xs suffix.
Proof.
  intros Hrev. exists (rev rest).
  rewrite <- (rev_involutive xs), Hrev, rev_app_distr.
  now rewrite rev_involutive.
Qed.

Ltac exit_case :=
  repeat split;
  first [ reflexivity | discriminate
        | eapply ends_with_rev; cbn [rev app]; reflexivity ].

Lemma Part000_draw_exit u others fault db :
  let result := Part000.draw u others fault (Store.idle db) in
  let trace := Task.trace (snd result) in
  match fst result with
  | Task.Json200 _ _ => ends_with trace [Task.Commit; Task.Release]
  | Task.JsonError _ _ => ends_with trace [Task.Rollback; Task.Release]
  end /\
  List.length (filter is_release trace) = 1%nat /\
  Store.work (Task.conn (snd result)) = None /\
  Store.locked (Task.conn (snd result)) = [].
Proof.
  intros result trace. subst result trace.
  destruct db as [table people records]; cbn [Store.prizes].
  destruct (Store.eligible table) as [| p rows] eqn:Hrows.
  - each_fault fault;
      run_with ltac:(rewrite ?Hrows, ?js_length_nil_eqb); exit_case.
  - destruct (@Part000_weightedRandom_some u (p :: rows)) as (sel & Hsel & Hin);
      [discriminate |].
    each_fault fault;
      run_with ltac:(rewrite ?Hrows, ?js_length_cons_eqb, ?Hsel); exit_case.
Qed.

Lemma IndexTs_draw_exit participantName u others fault db :
  participantName <> ""%string ->
  let result :=
    IndexTs.draw (Some participantName) u others fault (Store.idle db) in
  let trace := Task.trace (snd result) in
  match fst result with
  | Task.Json200 _ _ => ends_with trace [Task.Commit; Task.Release]
  | Task.JsonError _ _ => ends_with trace [Task.Rollback; Task.Release]
  end /\
  List.length (filter is_release trace) = 1%nat /\
  Store.work (Task.conn (snd result)) = None /\
  Store.locked (Task.conn (snd result)) = [].
Proof.
  intros Hname result trace. subst result trace.
  destruct db as [table people records]; cbn [Store.prizes].
  destruct participantName as [| a name]; [congruence |].
  destruct (Store.named (String a name) people)
    as [| first found] eqn:Hfound;
  destruct (Store.eligible table) as [| p rows] eqn:Hrows.
  1, 3:
    each_fault fault;
    run_with ltac:(rewrite ?Hfound, ?Hrows, ?js_length_nil_eqb); exit_case.
  all: destruct (@IndexTs_weightedRandom_some u (p :: rows)) as (sel & Hsel & Hin);
      [discriminate |].
  all: each_fault fault;
    run_with ltac:(rewrite ?Hfound, ?Hrows, ?js_length_cons_eqb, ?Hsel);
    exit_case.
Qed.

(** X5.  Every run of the draw of [part_000], and every run of the draw of
    [index.ts] that was sent a participant name, ends its transaction before
    giving the connection back: a 200 response follows [commit] and then
    [release], every error response follows [rollback] and then [release];
    [release] is called exactly once; and the connection is left with no open
    transaction and no lock. *)
Theorem every_exit_ends_the_transaction_and_releases :
  (forall u others fault db,
     let result := Part000.draw u others fault (Store.idle db) in
     let trace := Task.trace (snd result) in
     match fst result with
     | Task.Json200 _ _ => ends_with trace [Task.Commit; Task.Release]
     | Task.JsonError _ _ => ends_with trace [Task.Rollback; Task.Release]
     end /\
     List.length (filter is_release trace) = 1%nat /\
     Store.work (Task.conn (snd result)) = None /\
     Store.locked (Task.conn (snd result)) = [])
  /\
  (forall participantName u others fault db,
     participantName <> ""%string ->
     let result :=
       IndexTs.draw (Some participantName) u others fault (Store.idle db) in
     let trace := Task.trace (snd result) in
     match fst result with
     | Task.Json200 _ _ => ends_with trace [Task.Commit; Task.Release]
     | Task.JsonError _ _ => ends_with trace [Task.Rollback; Task.Release]
     end /\
     List.length (filter is_release trace) = 1%nat /\
     Store.work (Task.conn (snd result)) = None /\
     Store.locked (Task.conn (snd result)) = []).
Proof.
  split.
  - intros u others fault db. apply Part000_draw_exit.
  - intros participantName u others fault db Hname.
    now apply IndexTs_draw_exit.
Qed.

(** X6.  The draw of [index.ts] without a participant name answers 400 after
    [beginTransaction] and releases the connection without commit or rollback:
    no statement was sent and the database is unchanged, but the transaction
    stays open on the pooled connection.  The next draw on that connection
    behaves exactly as on a fresh one. *)
Theorem missing_name_leaves_transaction_open :
  forall name u others fault db next_name next_u next_others next_fault,
    name = None \/ name = Some ""%string ->
    fault <> Some 0%nat ->
    let result := IndexTs.draw name u others fault (Store.idle db) in
    let left_behind := Task.conn (snd result) in
    fst result = Task.JsonError 400 "Participant name is required" /\
    Task.trace (snd result) = [Task.BeginTransaction; Task.Release] /\
    Store.committed left_behind = db /\
    Store.work left_behind = Some db /\
    IndexTs.draw next_name next_u next_others next_fault left_behind
    = IndexTs.draw next_name next_u next_others next_fault (Store.idle db).
Proof.
  intros name u others fault db next_name next_u next_others next_fault
    Hname Hfault result left_behind.
  subst result left_behind.
  assert (forall c : Store.Conn IndexTs.Prize,
             c = {| Store.committed := db; Store.work := Some db;
                    Store.locked := [] |} ->
             IndexTs.draw next_name next_u next_others next_fault c
             = IndexTs.draw next_name next_u next_others next_fault
                 (Store.idle db)) as Hnext.
  { intros c ->.
    unfold IndexTs.draw, Task.try_catch_finally, IndexTs.draw_body, Task.bind,
      Task.beginTransaction, Task.await.
    destruct next_fault as [[| n] |]; reflexivity. }
  destruct Hname as [-> | ->];
    (destruct fault as [[| n] |]; [congruence | |]);
    repeat split; try reflexivity; now apply Hnext.
Qed.

(** ** Participants *)

Lemma next_id_above (ids : list Z) id : In id ids -> id < next_id ids.
Proof.
  unfold next_id. induction ids as [| a rest IH]; cbn [fold_right In]; [easy |].
  intros [-> | Hin]; [lia |]. specialize (IH Hin). lia.
Qed.

Lemma next_id_fresh (ids : list Z) : ~ In (next_id ids) ids.
Proof. intros Hin. apply next_id_above in Hin. lia. Qed.

Lemma named_In name (people : list Participant) who :
  In who (Store.named name people) <-> In who people /\ participant_name who = name.
Proof.
  unfold Store.named. rewrite filter_In. now rewrite String.eqb_eq.
Qed.

Lemma named_app name (xs ys : list Participant) :
  Store.named name (xs ++ ys) = Store.named name xs ++ Store.named name ys.
Proof. unfold Store.named. apply filter_app. Qed.

(** What the lookup-or-INSERT of [index.ts] does to the participants. *)
Lemma find_or_create_cases name (db : Store.Db IndexTs.Prize) :
  let before := Store.participants db in
  let who := mkParticipant (fst (IndexTs.find_or_create name db)) name in
  let after := Store.participants (snd (IndexTs.find_or_create name db)) in
  (exists rest, Store.named name before = who :: rest /\ after = before)
  \/
  (Store.named name before = [] /\ after = before ++ [who] /\
   ~ In (participant_id who) (map participant_id before)).
Proof.
  intros before who after. subst before who after.
  unfold IndexTs.find_or_create.
  destruct (Store.named name (Store.participants db)) as [| first rest] eqn:Hnamed.
  - right. split; [reflexivity |]. split; [reflexivity |]. apply next_id_fresh.
  - left. exists rest. split; [| reflexivity].
    assert (In first (Store.named name (Store.participants db))) as Hin
      by (rewrite Hnamed; now left).
    apply named_In in Hin. destruct Hin as [_ Hname].
    destruct first as [first_id first_name]. simpl in *. now subst.
Qed.

Lemma IndexTs_success_participant participantName u others fault db who sel :
  fst (IndexTs.draw (Some participantName) u others fault (Store.idle db))
  = Task.Json200 (Some who) sel ->
  who = mkParticipant (fst (IndexTs.find_or_create participantName db))
          participantName /\
  Store.participants
    (Store.committed
       (Task.conn
          (snd (IndexTs.draw (Some participantName) u others fault
                  (Store.idle db)))))
  = Store.participants (snd (IndexTs.find_or_create participantName db)).
Proof.
  intros Hres.
  destruct (IndexTs_draw_cases (Some participantName) u others fault db)
    as [(Hr & _) | [(Hr & _) | [(Hr & _) | Hok]]]; try congruence.
  destruct Hok as (pname & sel' & [= <-] & _ & _ & _ & Hr & ->).
  cbv zeta in Hr. rewrite Hr in Hres. injection Hres as <- <-.
  split; reflexivity.
Qed.

Lemma found_or_created_participant :
  forall participantName u others fault db who sel,
    let result :=
      IndexTs.draw (Some participantName) u others fault (Store.idle db) in
    let before := Store.participants db in
    let after := Store.participants (Store.committed (Task.conn (snd result))) in
    fst result = Task.Json200 (Some who) sel ->
    participant_name who = participantName /\
    In who after /\
    ((exists rest, Store.named participantName before = who :: rest /\
                   after = before)
     \/
     (Store.named participantName before = [] /\ after = before ++ [who] /\
      ~ In (participant_id who) (map participant_id before))).
Proof.
  intros participantName u others fault db who sel result before after Hres.
  subst result before after.
  destruct (IndexTs_success_participant _ _ _ _ _ Hres) as (-> & ->).
  split; [reflexivity |].
  destruct (find_or_create_cases participantName db)
    as [(rest & Hnamed & Hafter) | (Hnamed & Hafter & Hfresh)].
  - split; [| left; eauto].
    rewrite Hafter.
    apply (named_In participantName). rewrite Hnamed. now left.
  - split; [| right; auto].
    rewrite Hafter. apply in_or_app. right. now left.
Qed.

(** X7.  A successful draw of [index.ts] answers with a participant row that
    carries the name sent and is in the table afterwards: the first row of
    that name when there was one, the table being unchanged, and otherwise one
    new row, appended with an id that no earlier row has. *)
Theorem draw_finds_or_creates_participant :
  forall participantName u others fault db who sel,
    let result :=
      IndexTs.draw (Some participantName) u others fault (Store.idle db) in
    let before := Store.participants db in
    let after := Store.participants (Store.committed (Task.conn (snd result))) in
    fst result = Task.Json200 (Some who) sel ->
    participant_name who = participantName /\
    In who after /\
    ((exists rest, Store.named participantName before = who :: rest /\
                   after = before)
     \/
     (Store.named participantName before = [] /\ after = before ++ [who] /\
      ~ In (participant_id who) (map participant_id before))).
Proof.
  intros participantName u others fault db who sel result before after Hres.
  exact (found_or_created_participant _ _ _ _ _ Hres).
Qed.

(** X8.  Two successful draws of [index.ts] under the same name, one after
    the other: the second answers with the participant of the first and adds
    no participant row. *)
Theorem second_draw_reuses_participant :
  forall participantName u1 others1 fault1 u2 others2 fault2 db who1 sel1 who2 sel2,
    let first :=
      IndexTs.draw (Some participantName) u1 others1 fault1 (Store.idle db) in
    let db1 := Store.committed (Task.conn (snd first)) in
    let second :=
      IndexTs.draw (Some participantName) u2 others2 fault2 (Store.idle db1) in
    fst first = Task.Json200 (Some who1) sel1 ->
    fst second = Task.Json200 (Some who2) sel2 ->
    who2 = who1 /\
    Store.participants (Store.committed (Task.conn (snd second)))
    = Store.participants db1.
Proof.
  intros participantName u1 others1 fault1 u2 others2 fault2 db who1 sel1
    who2 sel2 first db1 second Hfirst Hsecond.
  subst second. 
  assert (exists rest, Store.named participantName (Store.participants db1)
                       = who1 :: rest) as (rest1 & Hnamed1).
  { subst db1 first.
    destruct (found_or_created_participant _ _ _ _ _ Hfirst)
      as (Hname & _ & [(rest & Hnamed & ->) | (Hnamed & -> & _)]).
    - eauto.
    - exists []. rewrite named_app, Hnamed. unfold Store.named. simpl.
      now replace (String.eqb (participant_name who1) participantName) with true
        by (symmetry; now apply String.eqb_eq). }
  destruct (found_or_created_participant _ _ _ _ _ Hsecond)
    as (_ & _ & [(rest & Hnamed & ->) | (Hnamed & _)]).
  - split; [congruence | reflexivity].
  - congruence.
Qed.

(** ** [POST /api/participants] *)

(** The rows a multi-row INSERT adds after [people]. *)
Lemma add_participants_rows names (db : Store.Db IndexTs.Prize) :
  exists rows,
    IndexRoutes.add_participants names db
    = Store.mkDb (Store.prizes db) (Store.participants db ++ rows)
        (Store.lottery_records db) /\
    map participant_name rows = names /\
    (forall row, In row rows ->
                 forall id, In id (map participant_id (Store.participants db)) ->
                            id < participant_id row) /\
    NoDup (map participant_id rows).
Proof.
  unfold IndexRoutes.add_participants. revert db.
  induction names as [| name rest IH]; intros db.
  - exists []. simpl. rewrite app_nil_r. destruct db. repeat split.
    + intros row [].
    + constructor.
  - cbn [fold_left].
    destruct (IH (snd (Store.add_participant name db)))
      as (rows & Heq & Hnames & Habove & Hnodup).
    set (new := mkParticipant
                  (next_id (map participant_id (Store.participants db))) name).
    assert (snd (Store.add_participant name db)
            = Store.mkDb (Store.prizes db) (Store.participants db ++ [new])
                (Store.lottery_records db)) as Hone by reflexivity.
    rewrite Hone in Heq, Habove.
    cbn [Store.prizes Store.participants Store.lottery_records] in Heq, Habove.
    exists (new :: rows). rewrite Hone, Heq, <- app_assoc.
    cbn [app map participant_name new].
    split; [reflexivity |]. split; [now rewrite Hnames |]. split.
    + intros row [<- | Hrow] id Hid.
      * cbn [participant_id new]. now apply next_id_above.
      * apply (Habove row Hrow). rewrite map_app. apply in_or_app. now left.
    + constructor; [| exact Hnodup].
      intros Hin. apply in_map_iff in Hin. destruct Hin as (row & Hid & Hrow).
      assert (participant_id new < participant_id row) as Hlt.
      { apply (Habove row Hrow). rewrite map_app. apply in_or_app. right.
        now left. }
      lia.
Qed.

Lemma posted_participant_rows :
  forall names rejects db,
    let result :=
      IndexRoutes.post_participants names rejects (Store.idle db) in
    match names with
    | None | Some [] =>
        result = (Pool.Failure 400 "Invalid participant names", Store.idle db)
    | Some sent =>
        if rejects
        then result = (Pool.Failure 500 "Failed to add participants", Store.idle db)
        else
          exists rows,
            result
            = (Pool.Json
                 (IndexRoutes.mkAdded "Participants added successfully"
                    (js_length sent)),
               Store.idle
                 (Store.mkDb (Store.prizes db)
                    (Store.participants db ++ rows)
                    (Store.lottery_records db))) /\
            map participant_name rows = sent /\
            NoDup (map participant_id rows) /\
            (forall row, In row rows ->
                         ~ In (participant_id row)
                             (map participant_id (Store.participants db)))
    end.
Proof.
  intros names rejects db result. subst result.
  destruct names as [[| name rest] |]; try reflexivity.
  destruct rejects; [reflexivity |].
  destruct (add_participants_rows (name :: rest) db)
    as (rows & Heq & Hnames & Habove & Hnodup).
  exists rows. split.
  - unfold IndexRoutes.post_participants, Pool.execute, Store.write, Store.idle.
    cbn [Store.work Store.committed Store.locked]. rewrite Heq.
    reflexivity.
  - split; [exact Hnames |]. split; [exact Hnodup |].
    intros row Hrow Hin. specialize (Habove row Hrow _ Hin). lia.
Qed.


(** X10.  A participant added by [POST /api/participants] is found by a later
    draw under that name: a successful draw answers with a row of that name
    that the table already held and adds no participant row. *)
Theorem posted_participant_is_reused_by_the_draw :
  forall names participantName u others fault db who sel,
    In participantName names ->
    let posted :=
      Store.committed
        (snd (IndexRoutes.post_participants (Some names) false (Store.idle db))) in
    let result :=
      IndexTs.draw (Some participantName) u others fault (Store.idle posted) in
    fst result = Task.Json200 (Some who) sel ->
    In who (Store.participants posted) /\
    participant_name who = participantName /\
    Store.participants (Store.committed (Task.conn (snd result)))
    = Store.participants posted.
Proof.
  intros names participantName u others fault db who sel Hin posted result Hres.
  subst result.
  assert (exists row, In row (Store.participants posted) /\
                      participant_name row = participantName) as (row & Hrow & Hname).
  { subst posted.
    pose proof (posted_participant_rows (Some names) false db) as Hpost.
    destruct names as [| name rest]; [destruct Hin |].
    cbv zeta in Hpost. destruct Hpost as (rows & -> & Hnames & _).
    cbn [snd Store.idle Store.committed Store.participants].
    rewrite <- Hnames in Hin. apply in_map_iff in Hin.
    destruct Hin as (row & Hname & Hrow).
    exists row. split; [apply in_or_app; now right | exact Hname]. }
  destruct (found_or_created_participant _ _ _ _ _ Hres)
    as (Hwho & _ & [(rest & Hnamed & Hafter) | (Hnamed & _)]).
  - split; [| split; assumption].
    apply (named_In participantName). rewrite Hnamed. now left.
  - exfalso.
    assert (In row (Store.named participantName (Store.participants posted))) as Habs
      by now apply named_In.
    rewrite Hnamed in Habs. destruct Habs.
Qed.

(** ** [PUT /api/prizes/:id] and [GET /api/prizes] *)



Lemma update_prize_missing target body rows :
  ~ In target (map IndexTs.id rows) ->
  IndexRoutes.update_prize target body rows = rows.
Proof.
  intros Hnot. unfold IndexRoutes.update_prize.
  rewrite <- (map_id rows) at 2. apply map_ext_in. intros p Hp.
  unfold IndexRoutes.update_row.
  destruct (Z.eqb_spec (IndexTs.id p) target) as [Heq | _]; [| reflexivity].
  exfalso. apply Hnot. rewrite <- Heq. now apply in_map.
Qed.


Lemma put_prize_result target body (db : Store.Db IndexTs.Prize) :
  IndexRoutes.put_prize target body false (Store.idle db)
  = (Pool.Json "Prize updated successfully"%string,
     Store.idle (Store.with_prizes (IndexRoutes.update_prize target body) db)).
Proof. reflexivity. Qed.

(** X11.  [PUT /api/prizes/:id] for an id that no prize has changes nothing
    and still answers "Prize updated successfully". *)
Theorem put_prize_on_missing_id_reports_success :
  forall target body db,
    ~ In target (map IndexTs.id (Store.prizes db)) ->
    IndexRoutes.put_prize target body false (Store.idle db)
    = (Pool.Json "Prize updated successfully"%string, Store.idle db).
Proof.
  intros target body db Hnot. rewrite put_prize_result.
  rewrite StoreFacts.with_prizes_same; [reflexivity |].
  now apply update_prize_missing.
Qed.



Lemma insert_by_probability_perm p rows :
  Permutation (p :: rows) (IndexRoutes.insert_by_probability p rows).
Proof.
  induction rows as [| q rest IH]; simpl; [reflexivity |].
  destruct (Qle_bool (IndexTs.probability p) (IndexTs.probability q));
    [reflexivity |].
  rewrite perm_swap. now apply perm_skip.
Qed.

Lemma order_by_probability_perm rows :
  Permutation rows (IndexRoutes.order_by_probability rows).
Proof.
  unfold IndexRoutes.order_by_probability.
  induction rows as [| p rest IH]; simpl; [reflexivity |].
  rewrite <- insert_by_probability_perm. now apply perm_skip.
Qed.

Lemma insert_by_probability_sorted p rows :
  Sorted (fun a b => IndexTs.probability a <= IndexTs.probability b)%Q rows ->
  Sorted (fun a b => IndexTs.probability a <= IndexTs.probability b)%Q
    (IndexRoutes.insert_by_probability p rows).
Proof.
  induction 1 as [| q rest Hsorted IH Hhd]; simpl.
  - repeat constructor.
  - destruct (Qle_bool (IndexTs.probability p) (IndexTs.probability q)) eqn:Hle.
    + apply Qle_bool_iff in Hle. repeat constructor; assumption.
    + assert (IndexTs.probability q <= IndexTs.probability p)%Q as Hge.
      { apply Qlt_le_weak, Qnot_le_lt. intros Habs.
        apply Qle_bool_iff in Habs. congruence. }
      constructor; [exact IH |].
      destruct rest as [| r rest']; simpl.
      * now constructor.
      * destruct (Qle_bool (IndexTs.probability p) (IndexTs.probability r));
          constructor; [exact Hge |].
        now inversion Hhd.
Qed.

(** X14.  [GET /api/prizes] of [index.ts] answers with all the rows of the
    table, those out of stock included, each as often as in the table, in
    non-decreasing order of [probability], and writes nothing. *)
Theorem get_prizes_lists_every_prize_by_probability :
  forall db,
    exists rows,
      IndexRoutes.get_prizes false (Store.idle db)
      = (Pool.Json rows, Store.idle db) /\
      Permutation (Store.prizes db) rows /\
      Sorted (fun a b => IndexTs.probability a <= IndexTs.probability b)%Q rows /\
      (forall p, In p (Store.prizes db) -> In p rows).
Proof.
  intros db. exists (IndexRoutes.order_by_probability (Store.prizes db)).
  split; [reflexivity |].
  pose proof (order_by_probability_perm (Store.prizes db)) as Hperm.
  split; [exact Hperm |]. split.
  - unfold IndexRoutes.order_by_probability.
    induction (Store.prizes db) as [| p rest IH]; simpl; [constructor |].
    apply insert_by_probability_sorted. apply IH.
    apply order_by_probability_perm.
  - intros p Hp. now apply (Permutation_in _ Hperm).
Qed.

(** X15.  The draw of [index.ts] changes the participants table only in a
    successful run, and then by appending the one participant of the response
    together with the draw record that references it. *)
Theorem participant_is_created_only_with_a_record :
  forall name u others fault db,
    let result := IndexTs.draw name u others fault (Store.idle db) in
    let after := Store.committed (Task.conn (snd result)) in
    Store.participants after <> Store.participants db ->
    exists who sel,
      fst result = Task.Json200 (Some who) sel /\
      Store.participants after = Store.participants db ++ [who] /\
      Store.lottery_records after
      = Store.lottery_records db
          ++ [mkLotteryRecord
                (next_id (map record_id (Store.lottery_records db)))
                (participant_id who) (IndexTs.id sel)].
Proof.
  intros name u others fault db result after Hchanged. subst result after.
  destruct (fst (IndexTs.draw name u others fault (Store.idle db)))
    as [participant sel | status error] eqn:Hres.
  - destruct (IndexTs_success _ _ _ _ _ Hres)
      as (who & -> & _ & _ & _ & Hrecords).
    exists who, sel. split; [reflexivity |].
    destruct name as [participantName |].
    + destruct (found_or_created_participant _ _ _ _ _ Hres)
        as (_ & _ & [(rest & _ & Hsame) | (_ & Hafter & _)]).
      * congruence.
      * split; assumption.
    + exfalso.
      destruct (IndexTs_draw_cases None u others fault db)
        as [(Hr & _) | [(Hr & _) | [(Hr & _) | Hok]]]; try congruence.
      destruct Hok as (pname & sel' & Hname & _). discriminate Hname.
  - exfalso. apply Hchanged.
    destruct (IndexTs_failure _ _ _ _ _ Hres) as [-> | ->]; reflexivity.
Qed.

(** ** Instances *)

Lemma stock_bounds_successful_draws_witness :
  Sequence.successes
    (fst (Sequence.part000_draws [1 # 20; 1 # 2; 1 # 3] Examples.part_db))
  = Nat.min 3 (Z.to_nat (Sequence.stock (Store.prizes Examples.part_db))) /\
  Sequence.successes
    (fst (Sequence.index_draws [("ann"%string, 1 # 20); ("bob"%string, 1 # 2)]
            Examples.index_last_db))
  = Nat.min 2 (Z.to_nat (Sequence.stock (Store.prizes Examples.index_last_db))).
Proof.
  split.
  - apply (proj1 stock_bounds_successful_draws [1 # 20; 1 # 2; 1 # 3]
             Examples.part_db).
    + repeat constructor; simpl; lia.
    + repeat constructor; simpl; intuition discriminate.
  - apply (proj2 stock_bounds_successful_draws
             [("ann"%string, 1 # 20); ("bob"%string, 1 # 2)]
             Examples.index_last_db).
    + repeat constructor; discriminate.
    + repeat constructor; simpl; lia.
    + repeat constructor; simpl; intuition discriminate.
Defined.

Lemma every_exit_ends_the_transaction_and_releases_witness :
  Store.work
    (Task.conn (snd (IndexTs.draw (Some "bob"%string) (1 # 20) [] (Some 4%nat)
                       (Store.idle Examples.index_db)))) = None.
Proof.
  apply (proj2 every_exit_ends_the_transaction_and_releases "bob"%string).
  discriminate.
Defined.

Lemma missing_name_leaves_transaction_open_witness :
  fst (IndexTs.draw None (1 # 20) [] None (Store.idle Examples.index_db))
  = Task.JsonError 400 "Participant name is required" /\
  Task.trace (snd (IndexTs.draw None (1 # 20) [] None
                     (Store.idle Examples.index_db)))
  = [Task.BeginTransaction; Task.Release].
Proof.
  destruct (@missing_name_leaves_transaction_open None (1 # 20) [] None
              Examples.index_db None (1 # 20) [] None)
    as (Hres & Htrace & _).
  - now left.
  - discriminate.
  - split; assumption.
Defined.

Lemma draw_finds_or_creates_participant_witness :
  participant_name (mkParticipant 1 "bob") = "bob"%string /\
  In (mkParticipant 1 "bob")
     (Store.participants
        (Store.committed
           (Task.conn (snd (IndexTs.draw (Some "bob"%string) (1 # 20) [] None
                              (Store.idle Examples.index_db)))))).
Proof.
  destruct (@draw_finds_or_creates_participant "bob"%string (1 # 20) [] None
              Examples.index_db (mkParticipant 1 "bob") Examples.index_first
              eq_refl) as (Hname & Hin & _).
  split; assumption.
Defined.

Lemma second_draw_reuses_participant_witness :
  Store.participants
    (Store.committed
       (Task.conn
          (snd (IndexTs.draw (Some "bob"%string) (1 # 2) [] None
                  (Store.idle MoreExamples.after_bob)))))
  = Store.participants MoreExamples.after_bob.
Proof.
  apply (@second_draw_reuses_participant "bob"%string (1 # 20) [] None
           (1 # 2) [] None Examples.index_db
           (mkParticipant 1 "bob") Examples.index_first
           (mkParticipant 1 "bob") Examples.index_second);
    reflexivity.
Defined.


Lemma posted_participant_is_reused_by_the_draw_witness :
  In (mkParticipant 2 "bob") (Store.participants MoreExamples.posted) /\
  participant_name (mkParticipant 2 "bob") = "bob"%string /\
  Store.participants
    (Store.committed
       (Task.conn
          (snd (IndexTs.draw (Some "bob"%string) (1 # 20) [] None
                  (Store.idle MoreExamples.posted)))))
  = Store.participants MoreExamples.posted.
Proof.
  apply (@posted_participant_is_reused_by_the_draw ["ann"; "bob"]%string
           "bob"%string (1 # 20) [] None Examples.index_db
           (mkParticipant 2 "bob") Examples.index_first).
  - simpl. tauto.
  - reflexivity.
Defined.

Lemma put_prize_on_missing_id_reports_success_witness :
  IndexRoutes.put_prize 7 (IndexRoutes.mkPrizeBody "none" 1 1 1 "black") false
    (Store.idle Examples.index_db)
  = (Pool.Json "Prize updated successfully"%string, Store.idle Examples.index_db).
Proof.
  apply put_prize_on_missing_id_reports_success.
  simpl. intuition discriminate.
Defined.



Lemma get_prizes_lists_every_prize_by_probability_witness :
  exists rows,
    IndexRoutes.get_prizes false (Store.idle Examples.index_empty_db)
    = (Pool.Json rows, Store.idle Examples.index_empty_db) /\
    In Examples.index_sold_out rows.
Proof.
  destruct (get_prizes_lists_every_prize_by_probability Examples.index_empty_db)
    as (rows & Hres & _ & _ & Hall).
  exists rows. split; [exact Hres |]. apply Hall. now left.
Defined.

Lemma participant_is_created_only_with_a_record_witness :
  exists who sel,
    fst (IndexTs.draw (Some "bob"%string) (1 # 20) [] None
           (Store.idle Examples.index_db))
    = Task.Json200 (Some who) sel.
Proof.
  destruct (@participant_is_created_only_with_a_record (Some "bob"%string)
              (1 # 20) [] None Examples.index_db)
    as (who & sel & Hres & _).
  - discriminate.
  - exists who, sel. exact Hres.
Defined.
